(** * libtorrent string utilities: [src/string_util.cpp]

    A shallow embedding of the text routines of [string_util.cpp]
    (integer formatting, the quote-aware splitter, the two comma separated
    list parsers, and the listen-interface parser and printer) together
    with the properties of them that the specification states. *)

From Stdlib Require Import String Ascii.
From Stdlib Require Import ZArith NArith Arith List Bool Lia.
From Equations Require Import Equations.
Import ListNotations.

Local Open Scope Z_scope.

(** ** Bytes and text

    A [char] is a byte; [std::string] and [string_view] are byte
    sequences.  Literals are written as Rocq strings and converted. *)

Definition text : Type := list ascii.

Notation "'$' s" := (list_ascii_of_string s%string)
  (at level 1, s at level 0, format "'$' s").

Definition code (c : ascii) : Z := Z.of_N (N_of_ascii c).

(** ** Character classes *)

(** [is_space]: the six white-space bytes, compared one by one. *)
Definition is_space (c : ascii) : bool :=
  Ascii.eqb c " " || Ascii.eqb c "009"%char || Ascii.eqb c "010"%char
  || Ascii.eqb c "013"%char || Ascii.eqb c "012"%char || Ascii.eqb c "011"%char.

(** Modelled from the spec: [is_digit] is declared in [string_util.hpp],
    which is not part of the sources at hand; the specification lists it
    among the byte predicates as "is this byte a decimal digit". *)
Definition is_digit (c : ascii) : bool :=
  (code "0"%char <=? code c) && (code c <=? code "9"%char).

(** ** Scanning loops

    [while (start < in.size() && p(in[start])) acc += in[start++];]
    The cursor only moves forward and only the byte under it is read, so
    the loop is a function of the unread remainder [in[start..]]: it
    returns the bytes it consumed and the new remainder. *)

Fixpoint scan (p : ascii -> bool) (s : text) : text * text :=
  match s with
  | c :: r =>
      if p c then let (acc, r') := scan p r in (c :: acc, r')
      else ([], s)
  | [] => ([], [])
  end.

(** The same loop when the consumed bytes are thrown away. *)
Definition skip (p : ascii -> bool) (s : text) : text := snd (scan p s).

Definition is_not (c0 : ascii) (c : ascii) : bool := negb (Ascii.eqb c c0).

(** ** [to_string] *)

Definition UINT64_MAX : Z := 2 ^ 64 - 1.
Definition INT64_MIN : Z := - 2 ^ 63.
Definition INT64_MAX : Z := 2 ^ 63 - 1.

(** [std::uint64_t(n)]: conversion to the unsigned type wraps modulo 2^64,
    as does every unsigned operation. *)
Definition to_uint64 (n : Z) : Z := n mod 2 ^ 64.

(** [un]: the absolute value, computed in unsigned space. *)
Definition unsigned_abs (n : Z) : Z :=
  if n <? 0
  then to_uint64 (to_uint64 (UINT64_MAX - to_uint64 n) + 1)
  else to_uint64 n.

(** ['0' + d] *)
Definition digit_char (d : Z) : ascii := ascii_of_N (Z.to_N (code "0"%char + d)).

(** [do { *--p = '0' + un % 10; un /= 10; } while (un);]
    [room] is the number of free slots left in front of [p]; the buffer
    has [4 + digits10] = 22 bytes, the last of which holds the
    terminator, so 21 slots are free when the loop starts. *)
Fixpoint to_string_digits (room : nat) (un : Z) (p : text) : text :=
  match room with
  | O => p
  | S room' =>
      let p := digit_char (un mod 10) :: p in
      let un := un / 10 in
      if un =? 0 then p else to_string_digits room' un p
  end.

Definition to_string_capacity : nat := 4 + 18.

(** The returned array, read as the C string it holds. *)
Definition to_string (n : Z) : text :=
  let p := to_string_digits (to_string_capacity - 1) (unsigned_abs n) [] in
  if n <? 0 then "-"%char :: p else p.

(** The number a sequence of decimal digits denotes. *)
Definition digit_val (c : ascii) : Z := code c - code "0"%char.

Definition decimal_value (ds : text) : Z :=
  fold_left (fun acc c => acc * 10 + digit_val c) ds 0.

(** Minimal form: a single ["0"], or a non-empty sequence that does not
    start with ["0"]. *)
Definition no_leading_zero (ds : text) : Prop :=
  ds = $"0" \/ (ds <> [] /\ hd_error ds <> Some "0"%char).

(** ** C library: [std::atoi]

    Leading white space, an optional sign, then decimal digits up to the
    first byte that is not one (the terminator included); [0] when there
    is no digit.  The C result is defined only while the value fits an
    [int]; the model keeps the exact number. *)

Fixpoint atoi_digits (s : text) (acc : Z) : Z :=
  match s with
  | c :: r => if is_digit c then atoi_digits r (acc * 10 + digit_val c) else acc
  | [] => acc
  end.

Definition atoi (s : text) : Z :=
  match skip is_space s with
  | c :: r =>
      if Ascii.eqb c "-"%char then - atoi_digits r 0
      else if Ascii.eqb c "+"%char then atoi_digits r 0
      else atoi_digits (c :: r) 0
  | [] => 0
  end.

(** ** Positions in a string *)

(** [in[i]]; [in[in.size()]] is the terminator. *)
Definition char_at (s : text) (i : nat) : ascii := nth i s zero.

(** [s.substr(pos)] and [s.substr(pos, n)], for [pos <= s.size()]. *)
Definition substr_from (s : text) (pos : nat) : text := skipn pos s.
Definition substr (s : text) (pos n : nat) : text := firstn n (skipn pos s).

(** Index of the first [c] in [s]. *)
Fixpoint index_of (c : ascii) (s : text) : option nat :=
  match s with
  | x :: r => if Ascii.eqb x c then Some O else option_map S (index_of c r)
  | [] => None
  end.

(** Index of the last [c] in [s]. *)
Fixpoint rindex_of (c : ascii) (s : text) : option nat :=
  match s with
  | x :: r =>
      match rindex_of c r with
      | Some i => Some (S i)
      | None => if Ascii.eqb x c then Some O else None
      end
  | [] => None
  end.

(** [in.find_first_of(c, pos)]: the first index [>= pos] holding [c];
    [None] is [npos]. *)
Definition find_first_of (s : text) (c : ascii) (pos : nat) : option nat :=
  option_map (Nat.add pos) (index_of c (skipn pos s)).

(** [in.find_last_of(c, pos)]: the last index [<= pos] holding [c]. *)
Definition find_last_of (s : text) (c : ascii) (pos : nat) : option nat :=
  rindex_of c (firstn (S pos) s).

(** [while (start < in.size() && p(in[start])) ++start;] on a position:
    [scan] on the remainder, the cursor advancing by what it consumed. *)
Definition skip_from (p : ascii -> bool) (s : text) (start : nat) : nat :=
  (start + length (fst (scan p (skipn start s))))%nat.

(** [while (soft_end > start && is_space(in[soft_end - 1])) --soft_end;] *)
Fixpoint trim_back (s : text) (start soft_end : nat) : nat :=
  match soft_end with
  | S e =>
      if (start <? soft_end)%nat && is_space (char_at s e)
      then trim_back s start e
      else soft_end
  | O => O
  end.

(** ** [split_string] *)

Definition dquote : ascii := ascii_of_nat 34.

(** [for (auto const c : last.substr(1)) { ++pos; if (c == Q) break; }]
    where [Q] is the double quote byte. *)
Fixpoint quote_scan (s : text) (pos : nat) : nat :=
  match s with
  | c :: r => if Ascii.eqb c dquote then S pos else quote_scan r (S pos)
  | [] => pos
  end.

(** [for (char const c : last.substr(pos))
      { if (c == sep) { found_sep = 1; break; } ++pos; }]
    returning [(pos, found_sep)]. *)
Fixpoint sep_scan (sep : ascii) (s : text) (pos : nat) : nat * nat :=
  match s with
  | c :: r => if Ascii.eqb c sep then (pos, 1%nat) else sep_scan sep r (S pos)
  | [] => (pos, 0%nat)
  end.

Definition split_string (last : text) (sep : ascii) : text * text :=
  match last with
  | [] => ([], [])
  | c0 :: _ =>
      let pos :=
        if Ascii.eqb c0 dquote && negb (Ascii.eqb sep dquote)
        then quote_scan (substr_from last 1) 0
        else O in
      let '(pos, found_sep) := sep_scan sep (substr_from last pos) pos in
      (substr last 0 pos, substr_from last (pos + found_sep))
  end.

(** ** The comma separated list parsers

    Both loops keep the positions [start] and [end] into [in]. *)

(** [end = in.find_first_of(',', start);
     if (end == std::string::npos) end = in.size();] *)
Definition field_end (inp : text) (start : nat) : nat :=
  match find_first_of inp ","%char start with
  | Some e => e
  | None => length inp
  end.

Lemma scan_length (p : ascii -> bool) (s : text) :
  (length (fst (scan p s)) + length (snd (scan p s)) = length s)%nat.
Proof.
  induction s as [|c r IH]; simpl; [reflexivity|].
  destruct (p c); simpl; [|reflexivity].
  destruct (scan p r) as [acc r']; simpl in *; lia.
Qed.

Lemma skip_from_le (p : ascii -> bool) (s : text) (start : nat) :
  (start <= skip_from p s start)%nat.
Proof. unfold skip_from; lia. Qed.

Lemma field_end_le (inp : text) (start : nat) :
  (start <= length inp -> start <= field_end inp start)%nat.
Proof.
  unfold field_end, find_first_of; intros H.
  destruct (index_of _ _); simpl; lia.
Qed.

Lemma skip_from_bound (p : ascii -> bool) (s : text) (start : nat) :
  (start <= length s -> skip_from p s start <= length s)%nat.
Proof.
  intros H; unfold skip_from.
  pose proof (scan_length p (skipn start s)) as E.
  rewrite length_skipn in E; lia.
Qed.

(** The body of [parse_comma_separated_string]'s loop up to the
    [push_back]: the trimmed field that starts at [start] (already past
    the leading spaces) and ends at [end]. *)
Definition trimmed_field (inp : text) (start end_ : nat) : text :=
  let soft_end := trim_back inp start end_ in
  substr inp start (soft_end - start).

Equations? parse_comma_separated_string_loop
  (inp : text) (start : nat) (out : list text) : list text
  by wf (length inp - start)%nat lt :=
  parse_comma_separated_string_loop inp start out
    with lt_dec start (length inp) := {
    | right _ => out
    | left _ =>
        parse_comma_separated_string_loop inp
          (field_end inp (skip_from is_space inp start) + 1)
          (out ++ [trimmed_field inp (skip_from is_space inp start)
                     (field_end inp (skip_from is_space inp start))]) }.
Proof.
  pose proof (skip_from_le is_space inp start).
  pose proof (skip_from_bound is_space inp start ltac:(lia)).
  pose proof (field_end_le inp (skip_from is_space inp start) ltac:(lia)).
  lia.
Qed.

(** [out.clear()], then the loop from position 0. *)
Definition parse_comma_separated_string (inp : text) : list text :=
  parse_comma_separated_string_loop inp 0 [].

(** The body of [parse_comma_separated_string_port]'s loop between the
    computation of [end] and [start = end + 1]: the entry appended for
    the field at [start .. end], if any. *)
Definition name_port_field (inp : text) (start end_ : nat) : option (text * Z) :=
  match find_last_of inp ":"%char end_ with
  | Some colon =>
      if (start <? colon)%nat then
        let port := atoi (substr inp (colon + 1) (end_ - colon - 1)) in
        let soft_end := trim_back inp start colon in
        let start :=
          if Ascii.eqb (char_at inp start) "["%char then S start else start in
        let soft_end :=
          if (start <? soft_end)%nat
             && Ascii.eqb (char_at inp (soft_end - 1)) "]"%char
          then (soft_end - 1)%nat else soft_end in
        Some (substr inp start (soft_end - start), port)
      else None
  | None => None
  end.

Definition push_opt {A : Type} (out : list A) (e : option A) : list A :=
  match e with
  | Some x => out ++ [x]
  | None => out
  end.

Equations? parse_comma_separated_string_port_loop
  (inp : text) (start : nat) (out : list (text * Z)) : list (text * Z)
  by wf (length inp - start)%nat lt :=
  parse_comma_separated_string_port_loop inp start out
    with lt_dec start (length inp) := {
    | right _ => out
    | left _ =>
        parse_comma_separated_string_port_loop inp
          (field_end inp (skip_from is_space inp start) + 1)
          (push_opt out
             (name_port_field inp (skip_from is_space inp start)
                (field_end inp (skip_from is_space inp start)))) }.
Proof.
  pose proof (skip_from_le is_space inp start).
  pose proof (skip_from_bound is_space inp start ltac:(lia)).
  pose proof (field_end_le inp (skip_from is_space inp start) ltac:(lia)).
  lia.
Qed.

Definition parse_comma_separated_string_port (inp : text) : list (text * Z) :=
  parse_comma_separated_string_port_loop inp 0 [].

(** ** Listen interfaces *)

(** [listen_interface_t]; [port] is an [int]. *)
Record listen_interface_t : Type := mk_listen_interface {
  device : text;
  port : Z;
  ssl : bool
}.

(** The device token, from the first byte after the leading spaces (the
    caller has checked that there is one). *)
Definition device_token (s : text) : text * text :=
  match s with
  | c :: r =>
      if Ascii.eqb c "["%char then
        (* IPv6 address *)
        let (dev, r1) := scan (is_not "]"%char) r in
        (* skip to the colon *)
        (dev, skip (is_not ":"%char) r1)
      else
        (* consume device name *)
        scan (fun c => negb (is_space c) && is_not ":"%char c) s
  | [] => ([], [])
  end.

(** The value given to [iface.port] from the port text; [-1] marks an
    invalid port. *)
Definition port_of_text (port : text) : Z :=
  if (length port =? 0)%nat || (5 <? length port)%nat then -1
  else
    let p := atoi port in
    if (p <? 0) || (65535 <? p) then -1 else p.

(** The condition of the port loop: [is_digit(in[start]) && in[start] != ','] *)
Definition port_byte (c : ascii) : bool := is_digit c && is_not ","%char c.

(** [if (start < in.size() && in[start] == c) ++start;] with the outcome
    of the test. *)
Definition accept (c0 : ascii) (s : text) : bool * text :=
  match s with
  | c :: r => if Ascii.eqb c c0 then (true, r) else (false, s)
  | [] => (false, [])
  end.

(** One turn of the outer loop, on the unread remainder.  [None] is the
    early [return out]; otherwise the record built (its port may be
    [-1]) and the remainder after the comma. *)
Definition parse_entry (s : text) : option (listen_interface_t * text) :=
  (* skip leading spaces *)
  match skip is_space s with
  | [] => None
  | s1 =>
      let (dev, s2) := device_token s1 in
      (* skip spaces *)
      match skip is_space s2 with
      | c :: s3 =>
          if Ascii.eqb c ":"%char then
            (* skip colon, skip spaces *)
            let s4 := skip is_space s3 in
            (* consume port *)
            let (port_text, s5) := scan port_byte s4 in
            (* skip spaces, consume potential SSL 's' *)
            let (is_ssl, s6) := accept "s"%char (skip is_space s5) in
            (* skip until end or comma, then skip the comma *)
            let (_, s7) := accept ","%char (skip (is_not ","%char) s6) in
            Some (mk_listen_interface dev (port_of_text port_text) is_ssl, s7)
          else None
      | [] => None
      end
  end.

(** [if (iface.port >= 0) out.push_back(iface);] *)
Definition push_valid (out : list listen_interface_t) (iface : listen_interface_t)
  : list listen_interface_t :=
  if 0 <=? port iface then out ++ [iface] else out.

Definition inspect {A : Type} (a : A) : {b : A | a = b} := exist _ a eq_refl.

Lemma skip_length (p : ascii -> bool) (s : text) :
  (length (skip p s) <= length s)%nat.
Proof. unfold skip. pose proof (scan_length p s). lia. Qed.

Lemma accept_length (c0 : ascii) (s : text) :
  (length (snd (accept c0 s)) <= length s)%nat.
Proof.
  destruct s as [|c r]; simpl; [lia|].
  destruct (Ascii.eqb c c0); simpl; lia.
Qed.

Lemma device_token_length (s : text) :
  (length (snd (device_token s)) <= length s)%nat.
Proof.
  destruct s as [|c r]; [simpl; lia|].
  unfold device_token. destruct (Ascii.eqb c "["%char).
  - pose proof (scan_length (is_not "]"%char) r) as E.
    destruct (scan (is_not "]"%char) r) as [dev r1].
    pose proof (skip_length (is_not ":"%char) r1).
    cbn [fst snd length] in *. lia.
  - pose proof (scan_length (fun c => negb (is_space c) && is_not ":"%char c) (c :: r)).
    lia.
Qed.

(** Every turn that does not return consumes the colon at least. *)
Lemma parse_entry_consumes (s : text) (iface : listen_interface_t) (rest : text) :
  parse_entry s = Some (iface, rest) -> (length rest < length s)%nat.
Proof.
  unfold parse_entry. pose proof (skip_length is_space s) as H1.
  destruct (skip is_space s) as [|c1 r1] eqn:E1; [discriminate|].
  pose proof (device_token_length (c1 :: r1)) as H2.
  destruct (device_token (c1 :: r1)) as [dev s2]; simpl snd in H2.
  pose proof (skip_length is_space s2) as H3.
  destruct (skip is_space s2) as [|c s3]; [discriminate|].
  destruct (Ascii.eqb c ":"%char); [|discriminate].
  pose proof (skip_length is_space s3) as H4.
  pose proof (scan_length port_byte (skip is_space s3)) as H5.
  destruct (scan _ (skip is_space s3)) as [port_text s5]; simpl in H5.
  pose proof (skip_length is_space s5) as H6.
  pose proof (accept_length "s"%char (skip is_space s5)) as H7.
  destruct (accept "s"%char (skip is_space s5)) as [is_ssl s6]; simpl snd in H7.
  pose proof (skip_length (is_not ","%char) s6) as H8.
  pose proof (accept_length ","%char (skip (is_not ","%char) s6)) as H9.
  destruct (accept ","%char (skip (is_not ","%char) s6)) as [b s7]; simpl snd in H9.
  intros [= <- <-]. simpl in *. lia.
Qed.

(** The outer loop [while (start < in.size())], on the unread remainder
    and the entries pushed so far. *)
Equations? parse_listen_interfaces_loop
  (s : text) (out : list listen_interface_t) : list listen_interface_t
  by wf (length s) lt :=
  parse_listen_interfaces_loop [] out := out;
  parse_listen_interfaces_loop (c :: r) out
    with inspect (parse_entry (c :: r)) := {
    | exist _ None _ => out
    | exist _ (Some (iface, rest)) E =>
        parse_listen_interfaces_loop rest (push_valid out iface) }.
Proof. apply (parse_entry_consumes _ _ _ E). Qed.

Definition parse_listen_interfaces (inp : text) : list listen_interface_t :=
  parse_listen_interfaces_loop inp [].

Section Printer.

(** [make_address_v6(i.device, ec)] belongs to the address library;
    the printer only looks at whether it left [ec] clear. *)
Variable is_address_v6 : text -> bool.

(** The body of the [for] loop, on the string built so far. *)
Definition print_listen_interface (ret : text) (i : listen_interface_t) : text :=
  let ret := if negb (length ret =? 0)%nat then ret ++ $"," else ret in
  let ret :=
    if is_address_v6 (device i)
    then ret ++ $"[" ++ device i ++ $"]"
    else ret ++ device i in
  let ret := ret ++ $":" ++ to_string (port i) in
  if ssl i then ret ++ $"s" else ret.

Definition print_listen_interfaces (l : list listen_interface_t) : text :=
  fold_left print_listen_interface l [].

End Printer.

(** * The other routines of the file *)

(** ** More character classes

    The comparisons are on [char]; a byte above 127 fails every range
    test below whether [char] is signed or not, so the byte's code
    stands for its value. *)

Definition is_alpha (c : ascii) : bool :=
  ((code "a"%char <=? code c) && (code c <=? code "z"%char))
  || ((code "A"%char <=? code c) && (code c <=? code "Z"%char)).

Definition is_print (c : ascii) : bool := (32 <=? code c) && (code c <? 127).

(** [(c >= 'A' && c <= 'Z') ? c - 'A' + 'a' : c] *)
Definition to_lower (c : ascii) : ascii :=
  if (code "A"%char <=? code c) && (code c <=? code "Z"%char)
  then ascii_of_N (Z.to_N (code c - code "A"%char + code "a"%char))
  else c.

(** ** Comparing strings *)

(** [string_begins_no_case] on two C strings, each given by the bytes at
    its pointer: [*s] is the first byte, the terminator when none is
    left. *)
Fixpoint string_begins_no_case (s1 s2 : text) : bool :=
  match s1 with
  | c1 :: r1 =>
      if Ascii.eqb c1 zero then true
      else if negb (Ascii.eqb (to_lower c1) (to_lower (hd zero s2))) then false
      else string_begins_no_case r1 (tl s2)
  | [] => true
  end.

(** [std::equal(first1, last1, first2, p)]: the second range is read as
    far as the first one reaches. *)
Fixpoint std_equal (p : ascii -> ascii -> bool) (s1 s2 : text) : bool :=
  match s1 with
  | c1 :: r1 => p c1 (hd zero s2) && std_equal p r1 (tl s2)
  | [] => true
  end.

Definition string_equal_no_case (s1 s2 : text) : bool :=
  if negb (length s1 =? length s2)%nat then false
  else std_equal (fun c1 c2 => Ascii.eqb (to_lower c1) (to_lower c2)) s1 s2.

(** [s1.size() >= s2.size()
     && std::equal(s2.rbegin(), s2.rend(), s1.rbegin())] *)
Definition string_ends_with (s1 s2 : text) : bool :=
  (length s2 <=? length s1)%nat && std_equal Ascii.eqb (rev s2) (rev s1).

(** ** [search] *)

(** [std::search(first, last, s_first, s_last)]: the offset of the first
    position of [target] at which [src] starts; [None] is [last]. An
    empty [src] is found at [first]. *)
Fixpoint std_search (src target : text) : option nat :=
  if (length src <=? length target)%nat && std_equal Ascii.eqb src target
  then Some O
  else match target with
       | _ :: r => option_map S (std_search src r)
       | [] => None
       end.

(** [static_cast<int>(d)] of a pointer difference: the low 32 bits, read
    as a two's complement number. *)
Definition to_int (d : Z) : Z := (d + 2 ^ 31) mod 2 ^ 32 - 2 ^ 31.

(** The four [TORRENT_ASSERT]s at the head of [search]: outside them a
    debug build stops. *)
Definition search_asserts (src target : text) : bool :=
  negb (length src =? 0)%nat
  && negb (length target =? 0)%nat
  && (length src <=? length target)%nat
  && (Z.of_nat (length target) <? 2 ^ 31 - 1).

(** The iterator [it] is kept as its offset [it - target.begin()];
    [target.end()] is the offset [length target]. *)
Definition search (src target : text) : Z :=
  let target_end := length target in
  let it := match std_search src target with
            | Some i => i
            | None => target_end
            end in
  (* no complete sync *)
  if (it =? target_end)%nat then -1
  else to_int (Z.of_nat it).

(** ** [url_random] *)

Definition printable : text :=
  $"0123456789ABCDEFGHIJKLMNOPQRSTUVWXYZabcdefghijklmnopqrstuvwxyz-_.!~*()".

(** [sizeof(printable)]: the characters and the terminator. *)
Definition sizeof_printable : nat := length printable + 1.

(** [random] is declared in [random.hpp]; [draws] are the numbers its
    successive calls [random(sizeof(printable) - 2)] return, one for
    each byte of [dest]. *)
Definition url_random (draws : list nat) : text :=
  map (fun r => char_at printable r) draws.

(** * Notions the properties are stated with *)

(** ** [split_string] *)

(** The position at which the separator loop starts. *)
Definition scan_start (last : text) (sep : ascii) : nat :=
  match last with
  | c0 :: _ =>
      if Ascii.eqb c0 dquote && negb (Ascii.eqb sep dquote)
      then quote_scan (substr_from last 1) 0
      else O
  | [] => O
  end.

(** ** [parse_listen_interfaces] *)

(** The unread remainder when the loop tests for the mandatory colon:
    leading spaces, the device token and the spaces after it are
    consumed. *)
Definition colon_cursor (s : text) : text :=
  skip is_space (snd (device_token (skip is_space s))).

(** What follows the first [c] of [t]; nothing if there is none. *)
Fixpoint after_first (c : ascii) (t : text) : text :=
  match t with
  | x :: r => if Ascii.eqb x c then r else after_first c r
  | [] => []
  end.

(** A loop with condition [p] can stop in front of [r]. *)
Definition stops (p : ascii -> bool) (r : text) : Prop :=
  match r with
  | c :: _ => p c = false
  | [] => True
  end.

(** [r] is what is left of [s] after some prefix has been read. *)
Definition remainder_of (s r : text) : Prop := exists pre, s = pre ++ r.

(** ** Printed form *)

(** A byte the round trip allows in a device text: no white space, no
    comma, no colon and no square bracket. *)
Definition plain_byte (c : ascii) : bool :=
  negb (is_space c) && is_not ","%char c && is_not ":"%char c
  && is_not "["%char c && is_not "]"%char c.

Definition plain_device (d : text) : Prop := Forall (fun c => plain_byte c = true) d.

Section PrintedForm.

Variable is_address_v6 : text -> bool.

(** What the printer writes for one record, the separating comma
    aside. *)
Definition entry_text (i : listen_interface_t) : text :=
  (if is_address_v6 (device i) then $"[" ++ device i ++ $"]" else device i)
  ++ $":" ++ to_string (port i) ++ (if ssl i then $"s" else []).

(** The text that follows the first record: every further record with
    the comma in front of it. *)
Definition entries_text (xs : list listen_interface_t) : text :=
  concat (map (fun i => ","%char :: entry_text i) xs).

End PrintedForm.

(** ** Comma-delimited fields *)

(** The comma-delimited fields of a text: it is cut at every comma, so
    a text with [n] commas has [n + 1] fields, empty ones included. *)
Fixpoint fields (s : text) : list text :=
  match s with
  | [] => [[]]
  | c :: r =>
      if Ascii.eqb c ","%char then [] :: fields r
      else match fields r with
           | f :: fs => (c :: f) :: fs
           | [] => [[c]]
           end
  end.

(** A field without its leading and trailing white space. *)
Definition trim_right (f : text) : text := rev (skip is_space (rev f)).

Definition trim (f : text) : text := trim_right (skip is_space f).

(** The fields without the final one when that is empty (the text is
    empty, or ends with a comma). *)
Definition emitted_fields (s : text) : list text :=
  match last (fields s) [] with
  | [] => removelast (fields s)
  | _ :: _ => fields s
  end.

(** The entry the loop body appends for a field taken on its own. *)
Definition field_entry (F : text) : option (text * Z) :=
  name_port_field F (skip_from is_space F 0) (length F).

(** The field holds a [":"] strictly behind its trim point, the first
    byte after the leading white space. *)
Definition late_colon (F : text) : Prop :=
  exists c r, skip is_space F = c :: r /\ In ":"%char r.

(** ** Texts of the listen-interface grammar *)

(** How one entry is written: the white space in front of it, whether
    the device stands in brackets, the bytes between the device token
    and the colon, the white space on both sides of the port, and the
    bytes between the entry and the next comma. *)
Record entry_layout : Type := mk_entry_layout {
  lead : text;
  bracketed : bool;
  between : text;
  before_port : text;
  after_port : text;
  trash : text
}.

Definition entry_source (i : listen_interface_t) (L : entry_layout) : text :=
  lead L
  ++ (if bracketed L then $"[" ++ device i ++ $"]" else device i)
  ++ between L ++ $":" ++ before_port L ++ to_string (port i) ++ after_port L
  ++ (if ssl i then $"s" else []) ++ trash L.

Definition spaces (w : text) : Prop := Forall (fun c => is_space c = true) w.

(** The trailing bytes of an entry without the SSL mark must not read
    as more port digits or as the mark. *)
Definition trash_head_ok (t : text) : Prop :=
  match t with
  | c :: _ => is_space c = false /\ is_digit c = false /\ c <> "s"%char
  | [] => True
  end.

Definition well_laid (i : listen_interface_t) (L : entry_layout) : Prop :=
  spaces (lead L) /\ spaces (before_port L) /\ spaces (after_port L)
  /\ ~ In ","%char (trash L)
  /\ (ssl i = false -> trash_head_ok (trash L))
  /\ 0 <= port i <= 65535
  /\ (if bracketed L
      then ~ In "]"%char (device i) /\ ~ In ":"%char (between L)
      else Forall (fun c => is_space c = false /\ c <> ":"%char) (device i)
           /\ hd_error (device i) <> Some "["%char
           /\ spaces (between L) /\ (device i = [] -> between L = [])).

(** The entries, separated by commas. *)
Definition join_entries (ts : list text) : text :=
  match ts with
  | t :: ts' => t ++ concat (map (fun t' => ","%char :: t') ts')
  | [] => []
  end.

(** ** Texts of name and port *)

(** How one [name:port] field is written: the white space in front of
    it, whether the name stands in brackets, and the white space before
    the colon and on both sides of the port. *)
Record name_port_layout : Type := mk_name_port_layout {
  np_lead : text;
  np_bracketed : bool;
  np_before_colon : text;
  np_before_port : text;
  np_after_port : text
}.

Definition name_port_source (e : text * Z) (L : name_port_layout) : text :=
  np_lead L
  ++ (if np_bracketed L then $"[" ++ fst e ++ $"]" else fst e)
  ++ np_before_colon L ++ $":" ++ np_before_port L ++ to_string (snd e)
  ++ np_after_port L.

(** A name that is read back as written when it stands without
    brackets: not empty, no colon, and neither white space nor a bracket
    at its two ends. *)
Definition plain_name (n : text) : Prop :=
  ~ In ":"%char n
  /\ (exists c r, n = c :: r /\ is_space c = false /\ c <> "["%char)
  /\ (exists r c, n = r ++ [c] /\ is_space c = false /\ c <> "]"%char).

Definition well_written (e : text * Z) (L : name_port_layout) : Prop :=
  spaces (np_lead L) /\ spaces (np_before_colon L)
  /\ spaces (np_before_port L) /\ spaces (np_after_port L)
  /\ - 2 ^ 31 <= snd e <= 2 ^ 31 - 1
  /\ ~ In ","%char (fst e)
  /\ (np_bracketed L = false -> plain_name (fst e)).

(** ** Further notions *)

Definition is_upper (c : ascii) : bool :=
  (code "A"%char <=? code c) && (code c <=? code "Z"%char).

(** The bytes a URL takes unescaped, without the single quote. *)
Definition url_safe (c : ascii) : bool :=
  is_alpha c || is_digit c || existsb (Ascii.eqb c) $"-_.!~*()".

Definition INT_MIN : Z := - 2 ^ 31.
Definition INT_MAX : Z := 2 ^ 31 - 1.

(** * Properties *)

(** ** Characters *)

Example is_space_bytes :
  map is_space [" "; "009"; "010"; "011"; "012"; "013"; "a"; "000"; ":"]%char
  = [true; true; true; true; true; true; false; false; false].
Proof. reflexivity. Qed.

Lemma is_digit_range (c : ascii) :
  is_digit c = true <-> 0 <= digit_val c <= 9.
Proof.
  unfold is_digit, digit_val. change (code "0"%char) with 48.
  change (code "9"%char) with 57.
  rewrite andb_true_iff, !Z.leb_le. lia.
Qed.

Lemma digit_char_val (d : Z) : 0 <= d <= 9 -> digit_val (digit_char d) = d.
Proof.
  intros H.
  assert (d = 0 \/ d = 1 \/ d = 2 \/ d = 3 \/ d = 4 \/ d = 5 \/ d = 6
          \/ d = 7 \/ d = 8 \/ d = 9) as D by lia.
  repeat (destruct D as [-> | D]; [reflexivity|]). subst; reflexivity.
Qed.

Lemma digit_char_digit (d : Z) : 0 <= d <= 9 -> is_digit (digit_char d) = true.
Proof. intros H. apply is_digit_range. rewrite digit_char_val; lia. Qed.

(** ** [to_string] *)

Lemma decimal_value_snoc (ds : text) (c : ascii) :
  decimal_value (ds ++ [c]) = decimal_value ds * 10 + digit_val c.
Proof. unfold decimal_value. now rewrite fold_left_app. Qed.

Lemma unsigned_abs_spec (n : Z) :
  INT64_MIN <= n <= INT64_MAX -> unsigned_abs n = Z.abs n.
Proof.
  unfold INT64_MIN, INT64_MAX, unsigned_abs, UINT64_MAX, to_uint64. intros H.
  destruct (Z.ltb_spec n 0) as [Hneg | Hpos].
  - assert (n mod 2 ^ 64 = n + 2 ^ 64) as ->
      by (symmetry; apply Z.mod_unique with (q := -1); lia).
    rewrite (Z.mod_small (2 ^ 64 - 1 - (n + 2 ^ 64))) by lia.
    rewrite Z.mod_small by lia. lia.
  - rewrite Z.mod_small by lia. lia.
Qed.

(** The digit loop writes the minimal decimal form of [un] in front of
    [p], provided its [k] digits fit the room that is left. *)
Lemma to_string_digits_spec (room : nat) :
  forall (k : nat) (un : Z) (p : text),
    (0 < k <= room)%nat -> 0 <= un < 10 ^ Z.of_nat k ->
    exists ds,
      to_string_digits room un p = ds ++ p
      /\ Forall (fun c => is_digit c = true) ds
      /\ decimal_value ds = un
      /\ no_leading_zero ds
      /\ (length ds <= k)%nat.
Proof.
  induction room as [|room IH]; intros k un p Hk Hun; [lia|].
  assert (0 <= un mod 10 <= 9) as Hd by (pose proof (Z.mod_pos_bound un 10); lia).
  cbn [to_string_digits].
  destruct (Z.eqb_spec (un / 10) 0) as [Hz | Hnz].
  - assert (un mod 10 = un) as Hsmall
      by (pose proof (Z.div_mod un 10 ltac:(lia)); lia).
    exists [digit_char (un mod 10)]. repeat split.
    + constructor; [now apply digit_char_digit | constructor].
    + unfold decimal_value; simpl. rewrite digit_char_val; lia.
    + destruct (Z.eq_dec un 0) as [-> | Hne]; [left; reflexivity|].
      right; split; [discriminate|]. simpl. intros [= E].
      apply (f_equal digit_val) in E. rewrite digit_char_val in E by lia.
      change (digit_val "0"%char) with 0 in E. lia.
    + simpl; lia.
  - destruct k as [|k]; [lia|].
    rewrite Nat2Z.inj_succ, Z.pow_succ_r in Hun by lia.
    assert (0 < un / 10 < 10 ^ Z.of_nat k) as Hq.
    { split.
      - pose proof (Z.div_pos un 10 ltac:(lia) ltac:(lia)); lia.
      - apply Z.div_lt_upper_bound; lia. }
    assert (0 < k)%nat as Hr.
    { destruct k; [simpl in Hq; lia | lia]. }
    destruct (IH k (un / 10) (digit_char (un mod 10) :: p) ltac:(lia) ltac:(lia))
      as (ds & E & Hdig & Hval & Hmin & Hlen).
    exists (ds ++ [digit_char (un mod 10)]). repeat split.
    + rewrite E, <- app_assoc. reflexivity.
    + apply Forall_app; split; [assumption|].
      constructor; [now apply digit_char_digit | constructor].
    + rewrite decimal_value_snoc, Hval, digit_char_val by lia.
      pose proof (Z.div_mod un 10 ltac:(lia)); lia.
    + right. destruct Hmin as [-> | [Hne Hhd]].
      * exfalso. change (decimal_value $"0") with 0 in Hval. lia.
      * destruct ds as [|c ds]; [congruence|]. split; [discriminate | exact Hhd].
    + rewrite length_app; simpl; lia.
Qed.

(** C9. For every signed 64-bit [n], the most negative one included,
    [to_string n] is the minimal decimal form of [n]: a ["-"] exactly
    when [n] is negative, then the decimal digits of [|n|] without a
    leading zero (the single digit ["0"] for zero).  The magnitude [un]
    computed in unsigned arithmetic is [|n|], and the text fits the
    buffer together with its terminator. *)
Theorem to_string_canonical (n : Z) :
  INT64_MIN <= n <= INT64_MAX ->
  unsigned_abs n = Z.abs n
  /\ (length (to_string n) < to_string_capacity)%nat
  /\ exists ds,
       to_string n = (if n <? 0 then $"-" else []) ++ ds
       /\ Forall (fun c => is_digit c = true) ds
       /\ decimal_value ds = Z.abs n
       /\ no_leading_zero ds.
Proof.
  intros H. pose proof (unsigned_abs_spec n H) as Habs.
  split; [exact Habs|].
  unfold to_string, to_string_capacity. rewrite Habs.
  assert (0 <= Z.abs n < 10 ^ Z.of_nat 20) as Hb
    by (unfold INT64_MIN, INT64_MAX in H; simpl; lia).
  change (4 + 18 - 1)%nat with 21%nat.
  destruct (to_string_digits_spec 21 20 (Z.abs n) [] ltac:(lia) Hb)
    as (ds & E & Hdig & Hval & Hmin & Hlen).
  rewrite app_nil_r in E. rewrite E. split.
  - destruct (n <? 0); simpl; lia.
  - exists ds. destruct (n <? 0); auto.
Qed.

Lemma to_string_canonical_witness :
  INT64_MIN <= INT64_MIN <= INT64_MAX
  /\ unsigned_abs INT64_MIN = Z.abs INT64_MIN
  /\ (length (to_string INT64_MIN) < to_string_capacity)%nat
  /\ exists ds,
       to_string INT64_MIN = (if INT64_MIN <? 0 then $"-" else []) ++ ds
       /\ Forall (fun c => is_digit c = true) ds
       /\ decimal_value ds = Z.abs INT64_MIN
       /\ no_leading_zero ds.
Proof.
  split; [unfold INT64_MIN, INT64_MAX; lia|].
  apply (to_string_canonical INT64_MIN). unfold INT64_MIN, INT64_MAX; lia.
Defined.

Example to_string_examples :
  to_string 0 = $"0" /\ to_string 6881 = $"6881" /\ to_string (-42) = $"-42"
  /\ to_string INT64_MIN = $"-9223372036854775808"
  /\ to_string INT64_MAX = $"9223372036854775807".
Proof. repeat split; reflexivity. Qed.

(** ** [split_string] *)

Lemma quote_scan_bound (s : text) :
  forall pos, (quote_scan s pos <= pos + length s)%nat.
Proof.
  induction s as [|c r IH]; intros pos; simpl; [lia|].
  destruct (Ascii.eqb c dquote); [lia|]. specialize (IH (S pos)). lia.
Qed.

(** Without a closing quote the loop counts every byte it is given. *)
Lemma quote_scan_unterminated (s : text) :
  forall pos, ~ In dquote s -> quote_scan s pos = (pos + length s)%nat.
Proof.
  induction s as [|c r IH]; intros pos Hq; simpl; [lia|].
  destruct (Ascii.eqb_spec c dquote) as [-> | _].
  - exfalso; apply Hq; now left.
  - rewrite IH by (intros Hin; apply Hq; now right). lia.
Qed.

(** What the separator loop returns: either the separator does not occur
    and [pos] has run to the end, or [pos] stands on its first
    occurrence. *)
Lemma sep_scan_spec (sep : ascii) (s : text) :
  forall pos,
    (~ In sep s /\ sep_scan sep s pos = ((pos + length s)%nat, 0%nat))
    \/ (exists a b, s = a ++ sep :: b /\ ~ In sep a
                    /\ sep_scan sep s pos = ((pos + length a)%nat, 1%nat)).
Proof.
  induction s as [|c r IH]; intros pos; simpl.
  - left; split; [tauto | f_equal; lia].
  - destruct (Ascii.eqb_spec c sep) as [-> | Hne].
    + right. exists [], r. repeat split; [tauto | simpl; f_equal; lia].
    + destruct (IH (S pos)) as [[Hnot E] | (a & b & -> & Hnot & E)].
      * left; split; [intros [H | H]; congruence|]. rewrite E; f_equal; lia.
      * right. exists (c :: a), b. repeat split.
        -- intros [H | H]; congruence.
        -- rewrite E; simpl; f_equal; lia.
Qed.

Lemma firstn_app_exact {A : Type} (l1 l2 : list A) :
  firstn (length l1) (l1 ++ l2) = l1.
Proof. induction l1 as [|x l1 IH]; simpl; [now destruct l2 | now rewrite IH]. Qed.

Lemma skipn_app_exact {A : Type} (l1 l2 : list A) (x : A) :
  skipn (length l1 + 1) (l1 ++ x :: l2) = l2.
Proof. induction l1 as [|y l1 IH]; simpl; [reflexivity | exact IH]. Qed.

Lemma scan_start_bound (last : text) (sep : ascii) :
  (scan_start last sep <= length last)%nat.
Proof.
  destruct last as [|c0 r]; simpl; [lia|].
  destruct (_ && _); [|lia].
  pose proof (quote_scan_bound r 0). simpl in *. lia.
Qed.

Lemma split_string_unfold (last : text) (sep : ascii) :
  last <> [] ->
  split_string last sep =
  (substr last 0 (fst (sep_scan sep (substr_from last (scan_start last sep))
                         (scan_start last sep))),
   substr_from last
     (fst (sep_scan sep (substr_from last (scan_start last sep)) (scan_start last sep))
      + snd (sep_scan sep (substr_from last (scan_start last sep)) (scan_start last sep)))).
Proof.
  destruct last as [|c0 r]; [congruence|]. intros _.
  unfold split_string, scan_start.
  destruct (sep_scan _ _ _) as [pos found]. reflexivity.
Qed.

(** C10. The two slices [split_string] returns put the input back
    together: either the separator was not found, [after] is empty and
    the input is [before] followed by [after], or the input is [before],
    the separator byte, then [after]. *)
Theorem split_string_reconstructs (s : text) (sep : ascii) :
  (snd (split_string s sep) = [] /\ s = fst (split_string s sep) ++ snd (split_string s sep))
  \/ s = fst (split_string s sep) ++ sep :: snd (split_string s sep).
Proof.
  destruct s as [|c0 r] eqn:Es; [left; split; reflexivity|].
  rewrite <- Es. assert (s <> []) as Hne by (subst; discriminate).
  rewrite (split_string_unfold s sep Hne). clear Es c0 r Hne.
  pose proof (scan_start_bound s sep) as Hb.
  set (p0 := scan_start s sep) in *.
  pose proof (firstn_skipn p0 s) as Hcat.
  unfold substr, substr_from. simpl skipn at 1.
  destruct (sep_scan_spec sep (skipn p0 s) p0)
    as [[Hnot E] | (a & b & Hs & Hnot & E)]; rewrite E; cbn [fst snd].
  - left. rewrite length_skipn.
    replace (p0 + (length s - p0) + 0)%nat with (length s) by lia.
    replace (p0 + (length s - p0))%nat with (length s) by lia.
    rewrite skipn_all, firstn_all, app_nil_r. split; reflexivity.
  - right. rewrite Hs, app_assoc in Hcat.
    assert (length (firstn p0 s ++ a) = p0 + length a)%nat as Hl
      by (rewrite length_app, length_firstn; lia).
    remember (firstn p0 s ++ a) as pre eqn:Hpre. clear Hpre.
    rewrite <- Hl, <- Hcat.
    cbn [skipn]. now rewrite firstn_app_exact, skipn_app_exact.
Qed.

(** With an opening quote that is never closed, the quote loop leaves
    [pos] on the last byte of the input, not behind it: that byte is
    still compared with the separator. *)
Lemma split_string_unterminated_quote (r : text) (x sep : ascii) :
  ~ In dquote (r ++ [x]) -> sep <> dquote ->
  split_string (dquote :: r ++ [x]) sep
  = (if Ascii.eqb x sep then dquote :: r else dquote :: r ++ [x], []).
Proof.
  intros Hq Hsep. unfold split_string.
  rewrite Ascii.eqb_refl. destruct (Ascii.eqb_spec sep dquote) as [|_]; [congruence|].
  cbn [andb negb]. unfold substr_from, substr.
  change (skipn 1 (dquote :: r ++ [x])) with (r ++ [x]).
  rewrite quote_scan_unterminated by assumption. cbn [Nat.add].
  assert (length (r ++ [x]) = length (dquote :: r)) as ->
    by (rewrite length_app; simpl; lia).
  change (dquote :: r ++ [x]) with ((dquote :: r) ++ [x]).
  assert (skipn (length (dquote :: r)) ((dquote :: r) ++ [x]) = [x]) as ->
    by now rewrite skipn_app, skipn_all, Nat.sub_diag.
  cbn [sep_scan]. cbn [skipn].
  destruct (Ascii.eqb x sep).
  - now rewrite skipn_app_exact, firstn_app_exact.
  - rewrite skipn_all2, firstn_all2; [reflexivity | |]; rewrite length_app; simpl; lia.
Qed.

(** C6 (the code departs from the claim).  The input starts with a quote,
    holds no second quote, and the separator is not the quote; yet the
    final byte is recognised as the separator and [before] is not the
    whole input. *)
Theorem split_string_unterminated_quote_last_separator :
  hd_error (dquote :: $"abc,") = Some dquote
  /\ ~ In dquote $"abc,"
  /\ ","%char <> dquote
  /\ split_string (dquote :: $"abc,") ","%char = (dquote :: $"abc", [])
  /\ fst (split_string (dquote :: $"abc,") ","%char) <> dquote :: $"abc,".
Proof.
  assert (~ In dquote $"abc,") as Hq
    by (simpl; intros H; repeat (destruct H as [H | H]; [discriminate H|]); exact H).
  pose proof (split_string_unterminated_quote $"abc" ","%char ","%char Hq
                ltac:(discriminate)) as E.
  cbn [Ascii.eqb Bool.eqb] in E.
  split; [reflexivity|]. split; [exact Hq|]. split; [discriminate|].
  split; [exact E|].
  change (fst (split_string (dquote :: $"abc" ++ [","%char]) ","%char)
          <> dquote :: $"abc,").
  rewrite E. discriminate.
Qed.

(** Away from that final byte the quoted case is as the claim has it. *)
Lemma split_string_unterminated_quote_whole (r : text) (x sep : ascii) :
  ~ In dquote (r ++ [x]) -> sep <> dquote -> x <> sep ->
  split_string (dquote :: r ++ [x]) sep = (dquote :: r ++ [x], []).
Proof.
  intros Hq Hsep Hx. rewrite split_string_unterminated_quote by assumption.
  now destruct (Ascii.eqb_spec x sep).
Qed.

Example split_string_quoted :
  split_string (dquote :: $"a,b" ++ dquote :: $",c") ","%char
  = (dquote :: $"a,b" ++ [dquote], $"c").
Proof. reflexivity. Qed.

(** ** [parse_listen_interfaces] *)

Lemma parse_listen_interfaces_loop_eq (s : text) (out : list listen_interface_t) :
  parse_listen_interfaces_loop s out =
  match s with
  | [] => out
  | _ :: _ =>
      match parse_entry s with
      | None => out
      | Some (iface, rest) => parse_listen_interfaces_loop rest (push_valid out iface)
      end
  end.
Proof.
  destruct s as [|c r]; simp parse_listen_interfaces_loop; [reflexivity|].
  destruct (inspect (parse_entry (c :: r))) as [[[iface rest]|] E];
    simp parse_listen_interfaces_loop; rewrite E; reflexivity.
Qed.

Lemma skip_cons (p : ascii -> bool) (c : ascii) (r : text) :
  skip p (c :: r) = if p c then skip p r else c :: r.
Proof.
  unfold skip; simpl. destruct (p c); [|reflexivity].
  now destruct (scan p r).
Qed.

Lemma skip_stop (p : ascii -> bool) (c : ascii) (r : text) :
  p c = false -> skip p (c :: r) = c :: r.
Proof. intros H. now rewrite skip_cons, H. Qed.


Lemma after_first_skip_space (t : text) :
  after_first ","%char (skip is_space t) = after_first ","%char t.
Proof.
  induction t as [|x r IH]; [reflexivity|].
  rewrite skip_cons. destruct (is_space x) eqn:Hx; [|reflexivity].
  rewrite IH. simpl. destruct (Ascii.eqb_spec x ","%char) as [-> | _];
    [discriminate Hx | reflexivity].
Qed.

Lemma after_first_accept_s (t : text) :
  after_first ","%char (snd (accept "s"%char t)) = after_first ","%char t.
Proof.
  destruct t as [|x r]; [reflexivity|]. simpl.
  destruct (Ascii.eqb_spec x "s"%char) as [-> | _]; reflexivity.
Qed.

Lemma accept_comma_skip (t : text) :
  snd (accept ","%char (skip (is_not ","%char) t)) = after_first ","%char t.
Proof.
  induction t as [|x r IH]; [reflexivity|].
  rewrite skip_cons. unfold is_not at 1. simpl.
  destruct (Ascii.eqb x ","%char) eqn:Hx; simpl; [now rewrite Hx | exact IH].
Qed.

(** The loop body once the colon test has passed. *)
Lemma parse_entry_colon (s s3 : text) :
  colon_cursor s = ":"%char :: s3 ->
  parse_entry s =
  Some (mk_listen_interface
          (fst (device_token (skip is_space s)))
          (port_of_text (fst (scan port_byte (skip is_space s3))))
          (fst (accept "s"%char (skip is_space (snd (scan port_byte (skip is_space s3)))))),
        after_first ","%char (snd (scan port_byte (skip is_space s3)))).
Proof.
  unfold colon_cursor, parse_entry. intros H.
  destruct (skip is_space s) as [|c1 r1] eqn:E1; [discriminate H|].
  destruct (device_token (c1 :: r1)) as [dev s2]. cbn [fst snd] in *.
  rewrite H. cbn [Ascii.eqb Bool.eqb].
  destruct (scan port_byte (skip is_space s3)) as [pt s5]. cbn [fst snd].
  rewrite <- (after_first_skip_space s5), <- after_first_accept_s, <- accept_comma_skip.
  destruct (accept "s"%char (skip is_space s5)) as [b s6]. cbn [fst snd].
  now destruct (accept ","%char (skip (is_not ","%char) s6)).
Qed.

(** The loop body when the colon test fails: the early return. *)
Lemma parse_entry_no_colon (s : text) :
  hd_error (colon_cursor s) <> Some ":"%char -> parse_entry s = None.
Proof.
  unfold colon_cursor, parse_entry. intros H.
  destruct (skip is_space s) as [|c1 r1] eqn:E1; [reflexivity|].
  destruct (device_token (c1 :: r1)) as [dev s2]. cbn [fst snd] in *.
  destruct (skip is_space s2) as [|c s3]; [reflexivity|].
  destruct (Ascii.eqb_spec c ":"%char) as [-> | _]; [|reflexivity].
  now contradiction H.
Qed.

(** C2. Whenever, after the device token and the spaces that follow it,
    the cursor is at the end of the input or on a byte other than [":"],
    the loop returns at once with exactly the entries pushed so far; so
    ["eth0 6881,eth1:6881"] parses to nothing. *)
Theorem missing_colon_stops_parse :
  (forall (s : text) (out : list listen_interface_t),
      hd_error (colon_cursor s) <> Some ":"%char ->
      parse_listen_interfaces_loop s out = out)
  /\ parse_listen_interfaces $"eth0 6881,eth1:6881" = [].
Proof.
  assert (forall s out, hd_error (colon_cursor s) <> Some ":"%char ->
                        parse_listen_interfaces_loop s out = out) as Hstop.
  { intros s out H. rewrite parse_listen_interfaces_loop_eq.
    destruct s as [|c r]; [reflexivity|].
    now rewrite (parse_entry_no_colon _ H). }
  split; [exact Hstop|].
  apply Hstop. discriminate.
Qed.

Lemma missing_colon_stops_parse_witness :
  hd_error (colon_cursor $"eth0 6881,eth1:6881") = Some "6"%char
  /\ parse_listen_interfaces_loop $"eth0 6881,eth1:6881"
       [mk_listen_interface $"lo" 1 true]
     = [mk_listen_interface $"lo" 1 true].
Proof.
  split; [reflexivity|].
  apply (proj1 missing_colon_stops_parse). discriminate.
Defined.

(** The same hard stop after entries have been collected: what was
    pushed before the malformed entry is returned, the rest is lost. *)
Example missing_colon_keeps_earlier_entries :
  parse_listen_interfaces $"eth0:6881,eth1 6881,eth2:6881"
  = [mk_listen_interface $"eth0" 6881 false].
Proof. reflexivity. Qed.

(** *** Scanning loops *)

Lemma scan_spec (p : ascii -> bool) (s : text) :
  s = fst (scan p s) ++ snd (scan p s)
  /\ Forall (fun c => p c = true) (fst (scan p s))
  /\ stops p (snd (scan p s)).
Proof.
  induction s as [|c r (IH1 & IH2 & IH3)]; simpl; [repeat split; constructor|].
  destruct (p c) eqn:Hc; simpl; [|repeat split; [constructor | exact Hc]].
  destruct (scan p r) as [acc r']; simpl in *.
  repeat split; [now f_equal | now constructor | assumption].
Qed.

Lemma scan_app_stop (p : ascii -> bool) (a r : text) :
  Forall (fun c => p c = true) a -> stops p r -> scan p (a ++ r) = (a, r).
Proof.
  induction 1 as [|c a Hc _ IH]; intros Hr; simpl.
  - destruct r as [|x r]; [reflexivity|]. simpl in *. now rewrite Hr.
  - now rewrite Hc, IH.
Qed.

Lemma skip_app_stop (p : ascii -> bool) (a r : text) :
  Forall (fun c => p c = true) a -> stops p r -> skip p (a ++ r) = r.
Proof. intros Ha Hr. unfold skip. now rewrite scan_app_stop. Qed.

Lemma is_not_Forall (c0 : ascii) (a : text) :
  Forall (fun c => is_not c0 c = true) a <-> ~ In c0 a.
Proof.
  unfold is_not. induction a as [|x a IH]; simpl.
  - split; [tauto | constructor].
  - split.
    + intros H. inversion H as [|? ? Hx Ha]; subst. apply IH in Ha.
      destruct (Ascii.eqb_spec x c0); [discriminate | tauto].
    + intros H. constructor.
      * destruct (Ascii.eqb_spec x c0); [tauto | reflexivity].
      * apply IH; tauto.
Qed.

Lemma stops_is_not (c0 : ascii) (r : text) :
  stops (is_not c0) r <-> r = [] \/ hd_error r = Some c0.
Proof.
  unfold is_not. destruct r as [|x r]; simpl; [tauto|].
  destruct (Ascii.eqb_spec x c0) as [-> | Hne]; simpl.
  - tauto.
  - split; [discriminate|]. intros [H | [= H]]; [discriminate | contradiction].
Qed.

(** *** Port text *)

Lemma port_of_text_invalid (pt : text) :
  pt = [] \/ (5 < length pt)%nat \/ ~ 0 <= atoi pt <= 65535 ->
  port_of_text pt = -1.
Proof.
  unfold port_of_text. intros H.
  destruct (Nat.eqb_spec (length pt) 0) as [_ | Hlen]; [reflexivity|].
  destruct (Nat.ltb_spec 5 (length pt)) as [_ | Hlen']; [reflexivity|].
  cbn [orb].
  destruct (Z.ltb_spec (atoi pt) 0); [reflexivity|].
  destruct (Z.ltb_spec 65535 (atoi pt)); [reflexivity|]. cbn [orb].
  destruct H as [-> | [H | H]]; [now contradiction Hlen | lia | lia].
Qed.


(** C3. An entry whose port text is empty, longer than five digits or
    denotes a number outside [0, 65535] pushes nothing, and the loop
    goes on with what follows the entry's comma; so
    ["eth0:6881,eth1:99999"] yields the first entry alone. *)
Theorem invalid_port_drops_entry :
  (forall (s s3 : text) (out : list listen_interface_t),
      colon_cursor s = ":"%char :: s3 ->
      (fst (scan port_byte (skip is_space s3)) = []
       \/ (5 < length (fst (scan port_byte (skip is_space s3))))%nat
       \/ ~ 0 <= atoi (fst (scan port_byte (skip is_space s3))) <= 65535) ->
      parse_listen_interfaces_loop s out
      = parse_listen_interfaces_loop
          (after_first ","%char (snd (scan port_byte (skip is_space s3)))) out)
  /\ parse_listen_interfaces $"eth0:6881,eth1:99999"
     = [mk_listen_interface $"eth0" 6881 false].
Proof.
  split; [|reflexivity].
  intros s s3 out Hc Hbad.
  rewrite (parse_listen_interfaces_loop_eq s).
  destruct s as [|c r]; [discriminate Hc|].
  rewrite (parse_entry_colon _ _ Hc).
  unfold push_valid. cbn [port].
  now rewrite (port_of_text_invalid _ Hbad).
Qed.

Lemma invalid_port_drops_entry_witness :
  colon_cursor $"eth1:99999,eth2:1" = ":"%char :: $"99999,eth2:1"
  /\ parse_listen_interfaces_loop $"eth1:99999,eth2:1" []
     = parse_listen_interfaces_loop $"eth2:1" [].
Proof.
  split; [reflexivity|].
  apply (proj1 invalid_port_drops_entry $"eth1:99999,eth2:1" $"99999,eth2:1" []);
    [reflexivity|].
  right; right. vm_compute. intros [_ H]. now apply H.
Defined.

Example invalid_port_examples :
  parse_listen_interfaces $"eth0:,eth1:80" = [mk_listen_interface $"eth1" 80 false]
  /\ parse_listen_interfaces $"eth0:123456,eth1:80" = [mk_listen_interface $"eth1" 80 false]
  /\ parse_listen_interfaces $"eth0:65536s,eth1:65535" = [mk_listen_interface $"eth1" 65535 false]
  /\ parse_listen_interfaces $"127.0.0.1:6881s" = [mk_listen_interface $"127.0.0.1" 6881 true].
Proof. repeat split; reflexivity. Qed.

(** *** The device token *)

Lemma device_token_bracket (r : text) :
  device_token ("["%char :: r)
  = (fst (scan (is_not "]"%char) r),
     skip (is_not ":"%char) (snd (scan (is_not "]"%char) r))).
Proof. simpl. now destruct (scan (is_not "]"%char) r). Qed.

Lemma device_token_plain (c : ascii) (r : text) :
  c <> "["%char ->
  device_token (c :: r)
  = scan (fun c => negb (is_space c) && is_not ":"%char c) (c :: r).
Proof.
  intros H. unfold device_token.
  now destruct (Ascii.eqb_spec c "["%char).
Qed.

(** Skipping to a byte: the remainder is empty when the byte does not
    occur, and starts at its first occurrence otherwise. *)
Lemma skip_to_spec (c0 : ascii) (t : text) :
  (~ In c0 t /\ skip (is_not c0) t = [])
  \/ (exists junk rest, t = junk ++ c0 :: rest /\ ~ In c0 junk
                        /\ skip (is_not c0) t = c0 :: rest).
Proof.
  destruct (scan_spec (is_not c0) t) as (E & Ha & Hr). fold (skip (is_not c0) t) in *.
  apply is_not_Forall in Ha. apply stops_is_not in Hr.
  destruct (skip (is_not c0) t) as [|x rest] eqn:Es.
  - left. rewrite app_nil_r in E. rewrite E at 1. now split.
  - right. destruct Hr as [Hr | [= ->]]; [discriminate|].
    now exists (fst (scan (is_not c0) t)), rest.
Qed.

(** C5. On an entry that starts with ["["] the bracket is consumed, the
    device text is everything up to the first ["]"] (or the end of the
    input), the ["]"] is not part of it, and the cursor then moves to
    the next [":"] (or the end), dropping whatever lies between; so
    ["[::1]:6881"] yields the device ["::1"] with port 6881. *)
Theorem bracketed_device_token :
  (forall r : text,
      exists tail,
        r = fst (device_token ("["%char :: r)) ++ tail
        /\ ~ In "]"%char (fst (device_token ("["%char :: r)))
        /\ (tail = [] \/ hd_error tail = Some "]"%char)
        /\ ((~ In ":"%char tail /\ snd (device_token ("["%char :: r)) = [])
            \/ exists junk rest,
                 tail = junk ++ ":"%char :: rest /\ ~ In ":"%char junk
                 /\ snd (device_token ("["%char :: r)) = ":"%char :: rest))
  /\ (forall (s dev junk rest0 : text),
         skip is_space s = "["%char :: dev ++ "]"%char :: junk ++ ":"%char :: rest0 ->
         ~ In "]"%char dev -> ~ In ":"%char junk ->
         exists p b rest,
           parse_entry s = Some (mk_listen_interface dev p b, rest)
           /\ parse_entry (":"%char :: rest0) = Some (mk_listen_interface [] p b, rest))
  /\ parse_listen_interfaces $"[::1]:6881" = [mk_listen_interface $"::1" 6881 false].
Proof.
  split; [|split; [|reflexivity]].
  - intros r. rewrite device_token_bracket. cbn [fst snd].
    destruct (scan_spec (is_not "]"%char) r) as (E & Ha & Hr).
    exists (snd (scan (is_not "]"%char) r)).
    split; [exact E|]. split; [now apply is_not_Forall|].
    split; [now apply stops_is_not|]. apply skip_to_spec.
  - intros s dev junk rest0 Hs Hdev Hjunk.
    assert (colon_cursor s = ":"%char :: rest0) as Hc.
    { unfold colon_cursor. rewrite Hs, device_token_bracket. cbn [snd].
      rewrite scan_app_stop by (try apply is_not_Forall; trivial; reflexivity).
      cbn [snd].
      change ("]"%char :: junk ++ ":"%char :: rest0)
        with (("]"%char :: junk) ++ ":"%char :: rest0).
      rewrite skip_app_stop.
      - now apply skip_stop.
      - apply is_not_Forall. intros [H | H]; [discriminate | contradiction].
      - reflexivity. }
    assert (colon_cursor (":"%char :: rest0) = ":"%char :: rest0) as Hc' by reflexivity.
    rewrite (parse_entry_colon _ _ Hc), (parse_entry_colon _ _ Hc').
    do 3 eexists. split; [|reflexivity].
    do 2 f_equal. rewrite Hs, device_token_bracket. cbn [fst].
    rewrite scan_app_stop by (try apply is_not_Forall; trivial; reflexivity).
    reflexivity.
Qed.

Lemma bracketed_device_token_witness :
  skip is_space $" [fe80::1]%eth0 :6881s,x:1"
  = "["%char :: $"fe80::1" ++ "]"%char :: $"%eth0 " ++ ":"%char :: $"6881s,x:1"
  /\ exists p b rest,
       parse_entry $" [fe80::1]%eth0 :6881s,x:1"
       = Some (mk_listen_interface $"fe80::1" p b, rest)
       /\ parse_entry $":6881s,x:1" = Some (mk_listen_interface [] p b, rest).
Proof.
  split; [reflexivity|].
  apply (proj1 (proj2 bracketed_device_token)
           $" [fe80::1]%eth0 :6881s,x:1" $"fe80::1" $"%eth0 " $"6881s,x:1");
    [reflexivity | |];
    simpl; intros H; repeat (destruct H as [H | H]; [discriminate H|]); exact H.
Defined.

(** An opening bracket that is never closed takes the rest of the input
    as device text and leaves nothing for the colon test. *)
Example unclosed_bracket_stops_parse :
  device_token $"[::1:6881" = ($"::1:6881", [])
  /\ parse_listen_interfaces $"eth0:1,[::1:6881" = [mk_listen_interface $"eth0" 1 false].
Proof. split; reflexivity. Qed.

(** *** Every record of the result *)

Lemma remainder_refl (s : text) : remainder_of s s.
Proof. now exists []. Qed.

Lemma remainder_trans (s r t : text) :
  remainder_of s r -> remainder_of r t -> remainder_of s t.
Proof. intros [p ->] [q ->]. exists (p ++ q). now rewrite app_assoc. Qed.

Lemma remainder_cons (c : ascii) (s : text) : remainder_of (c :: s) s.
Proof. now exists [c]. Qed.

Lemma remainder_scan (p : ascii -> bool) (s : text) :
  remainder_of s (snd (scan p s)).
Proof. exists (fst (scan p s)). apply scan_spec. Qed.

Lemma remainder_skip (p : ascii -> bool) (s : text) : remainder_of s (skip p s).
Proof. apply remainder_scan. Qed.

Lemma remainder_after_first (c : ascii) (s : text) :
  remainder_of s (after_first c s).
Proof.
  induction s as [|x s IH]; simpl; [apply remainder_refl|].
  destruct (Ascii.eqb x c); [apply remainder_cons|].
  eapply remainder_trans; [apply remainder_cons | exact IH].
Qed.

Lemma remainder_device_token (s : text) :
  remainder_of s (snd (device_token s)).
Proof.
  destruct s as [|c r]; [apply remainder_refl|].
  destruct (Ascii.eqb_spec c "["%char) as [-> | Hne].
  - rewrite device_token_bracket. cbn [snd].
    eapply remainder_trans; [apply remainder_cons|].
    eapply remainder_trans; [apply remainder_scan | apply remainder_skip].
  - rewrite device_token_plain by assumption. apply remainder_scan.
Qed.

(** A turn that goes on passed the colon test. *)
Lemma parse_entry_some_colon (s : text) (i : listen_interface_t) (rest : text) :
  parse_entry s = Some (i, rest) -> exists s3, colon_cursor s = ":"%char :: s3.
Proof.
  intros H. destruct (colon_cursor s) as [|c s3] eqn:Ec.
  - rewrite parse_entry_no_colon in H; [discriminate | now rewrite Ec].
  - destruct (Ascii.eqb_spec c ":"%char) as [-> | Hne]; [now exists s3|].
    rewrite parse_entry_no_colon in H; [discriminate|].
    rewrite Ec. simpl. congruence.
Qed.

Lemma parse_entry_remainder (s : text) (i : listen_interface_t) (rest : text) :
  parse_entry s = Some (i, rest) -> remainder_of s rest.
Proof.
  intros H. destruct (parse_entry_some_colon _ _ _ H) as [s3 Hc].
  rewrite (parse_entry_colon _ _ Hc) in H. injection H as _ <-.
  assert (remainder_of s (":"%char :: s3)) as H0.
  { rewrite <- Hc. unfold colon_cursor.
    eapply remainder_trans; [apply remainder_skip|].
    eapply remainder_trans; [apply remainder_device_token | apply remainder_skip]. }
  eapply remainder_trans; [exact H0|].
  eapply remainder_trans; [apply remainder_cons|].
  eapply remainder_trans; [apply remainder_skip|].
  eapply remainder_trans; [apply remainder_scan | apply remainder_after_first].
Qed.

(** Every record the loop returns was either there before, or built by
    one turn of the loop at some cursor position, with a valid port. *)
Lemma parse_listen_interfaces_loop_In (n : nat) :
  forall (s : text) (out : list listen_interface_t) (i : listen_interface_t),
    (length s <= n)%nat ->
    In i (parse_listen_interfaces_loop s out) ->
    In i out
    \/ exists e rest, remainder_of s e /\ parse_entry e = Some (i, rest) /\ 0 <= port i.
Proof.
  induction n as [|n IH]; intros s out i Hn; rewrite parse_listen_interfaces_loop_eq.
  - destruct s; [tauto | simpl in Hn; lia].
  - destruct s as [|c r]; [tauto|].
    destruct (parse_entry (c :: r)) as [[iface rest]|] eqn:E; [|tauto].
    pose proof (parse_entry_consumes _ _ _ E) as Hlt.
    pose proof (parse_entry_remainder _ _ _ E) as Hrem.
    intros Hin. apply IH in Hin; [|lia].
    destruct Hin as [Hin | (e & rest' & He & Hp & Hport)].
    + unfold push_valid in Hin. destruct (Z.leb_spec 0 (port iface)); [|tauto].
      apply in_app_or in Hin. destruct Hin as [Hin | [<- | []]]; [tauto|].
      right. exists (c :: r), rest. split; [apply remainder_refl | tauto].
    + right. exists e, rest'. split; [|tauto].
      eapply remainder_trans; eassumption.
Qed.





(** ** Printing, then parsing *)

Lemma plain_byte_spec (c : ascii) :
  plain_byte c = true ->
  is_space c = false /\ c <> ":"%char /\ c <> "["%char /\ c <> "]"%char.
Proof.
  unfold plain_byte, is_not. rewrite !andb_true_iff, !negb_true_iff.
  intros ((((H1 & _) & H3) & H4) & H5).
  repeat split; trivial; intros ->; discriminate.
Qed.

Lemma is_space_code (c : ascii) : is_space c = true -> code c <= 32.
Proof.
  unfold is_space. rewrite !orb_true_iff.
  intros [[[[[H | H] | H] | H] | H] | H];
    apply Ascii.eqb_eq in H; subst c; vm_compute; discriminate.
Qed.

Lemma digit_not_space (c : ascii) : is_digit c = true -> is_space c = false.
Proof.
  intros H. apply is_digit_range in H. unfold digit_val in H.
  change (code "0"%char) with 48 in H.
  destruct (is_space c) eqn:Hs; [|reflexivity].
  apply is_space_code in Hs. lia.
Qed.

Lemma digit_port_byte (c : ascii) : is_digit c = true -> port_byte c = true.
Proof.
  intros H. unfold port_byte, is_not. rewrite H.
  destruct (Ascii.eqb_spec c ","%char) as [-> | _]; [discriminate H | reflexivity].
Qed.

Lemma atoi_digits_value (ds : text) :
  Forall (fun c => is_digit c = true) ds ->
  forall acc, atoi_digits ds acc = fold_left (fun a c => a * 10 + digit_val c) ds acc.
Proof.
  induction 1 as [|c ds Hc _ IH]; intros acc; simpl; [reflexivity|].
  now rewrite Hc, IH.
Qed.

(** [atoi] reads an unsigned digit sequence as the number it denotes. *)
Lemma atoi_decimal (ds : text) :
  Forall (fun c => is_digit c = true) ds -> atoi ds = decimal_value ds.
Proof.
  intros H. unfold atoi. destruct ds as [|c ds]; [reflexivity|].
  inversion H as [|? ? Hc Hds]; subst.
  rewrite skip_stop by now apply digit_not_space.
  destruct (Ascii.eqb_spec c "-"%char) as [-> | _]; [discriminate Hc|].
  destruct (Ascii.eqb_spec c "+"%char) as [-> | _]; [discriminate Hc|].
  now apply atoi_digits_value.
Qed.

(** The text of a valid port: one to five digits that [atoi] and the
    range test give back unchanged. *)
Lemma to_string_port (p : Z) :
  0 <= p <= 65535 ->
  Forall (fun c => is_digit c = true) (to_string p)
  /\ to_string p <> []
  /\ port_of_text (to_string p) = p.
Proof.
  intros Hp. unfold to_string, unsigned_abs, to_uint64.
  destruct (Z.ltb_spec p 0) as [|_]; [lia|].
  rewrite Z.mod_small by lia.
  destruct (to_string_digits_spec (to_string_capacity - 1) 5 p []
              ltac:(unfold to_string_capacity; lia) ltac:(simpl; lia))
    as (ds & E & Hdig & Hval & Hmin & Hlen).
  rewrite app_nil_r in E. rewrite E.
  assert (ds <> []) as Hne by (destruct Hmin as [-> | [H _]]; [discriminate | exact H]).
  repeat split; trivial.
  unfold port_of_text. rewrite atoi_decimal, Hval by assumption.
  destruct ds as [|c ds]; [congruence|].
  destruct (Nat.ltb_spec 5 (length (c :: ds))) as [|_]; [lia|].
  cbn [length Nat.eqb orb].
  destruct (Z.ltb_spec p 0); [lia|]. destruct (Z.ltb_spec 65535 p); [lia|].
  reflexivity.
Qed.

Section RoundTrip.

Variable is_address_v6 : text -> bool.

Lemma print_listen_interface_eq (ret : text) (i : listen_interface_t) :
  print_listen_interface is_address_v6 ret i
  = match ret with [] => [] | _ :: _ => ret ++ $"," end ++ entry_text is_address_v6 i.
Proof.
  unfold print_listen_interface, entry_text.
  destruct ret as [|c ret]; cbn [length Nat.eqb negb];
    destruct (is_address_v6 (device i)), (ssl i);
    repeat (rewrite <- ?app_assoc; cbn [app]); rewrite ?app_nil_r; reflexivity.
Qed.

Lemma print_listen_interfaces_from (xs : list listen_interface_t) :
  forall ret, ret <> [] ->
    fold_left (print_listen_interface is_address_v6) xs ret = ret ++ entries_text is_address_v6 xs.
Proof.
  induction xs as [|x xs IH]; intros ret Hret; cbn [fold_left].
  - unfold entries_text; simpl. now rewrite app_nil_r.
  - rewrite print_listen_interface_eq. destruct ret as [|c ret]; [congruence|].
    rewrite IH by discriminate. unfold entries_text; cbn [map concat].
    repeat (rewrite <- ?app_assoc; cbn [app]). reflexivity.
Qed.

Lemma entry_text_nonempty (i : listen_interface_t) : entry_text is_address_v6 i <> [].
Proof.
  unfold entry_text. destruct (is_address_v6 (device i)); [discriminate|].
  destruct (device i); discriminate.
Qed.

Lemma print_listen_interfaces_cons (x : listen_interface_t) (xs : list listen_interface_t) :
  print_listen_interfaces is_address_v6 (x :: xs) = entry_text is_address_v6 x ++ entries_text is_address_v6 xs.
Proof.
  unfold print_listen_interfaces. cbn [fold_left].
  rewrite print_listen_interface_eq. cbn [app].
  apply print_listen_interfaces_from, entry_text_nonempty.
Qed.

(** The device part of a printed entry is read back as written. *)
Lemma device_token_printed_plain (d R : text) :
  plain_device d ->
  skip is_space (d ++ ":"%char :: R) = d ++ ":"%char :: R
  /\ device_token (d ++ ":"%char :: R) = (d, ":"%char :: R).
Proof.
  intros Hd. split.
  - destruct d as [|c d]; [now apply skip_stop|].
    inversion Hd as [|? ? Hc _]; subst. apply plain_byte_spec in Hc.
    now apply skip_stop.
  - assert (device_token (d ++ ":"%char :: R)
            = scan (fun c => negb (is_space c) && is_not ":"%char c)
                (d ++ ":"%char :: R)) as ->.
    { destruct d as [|c d]; [reflexivity|].
      inversion Hd as [|? ? Hc _]; subst. apply plain_byte_spec in Hc.
      now apply device_token_plain. }
    apply scan_app_stop; [|reflexivity].
    eapply Forall_impl; [|exact Hd]. intros c Hc.
    apply plain_byte_spec in Hc. destruct Hc as (-> & Hcolon & _).
    unfold is_not. now destruct (Ascii.eqb_spec c ":"%char).
Qed.

Lemma device_token_printed_bracket (d R : text) :
  plain_device d ->
  skip is_space ("["%char :: d ++ "]"%char :: ":"%char :: R)
  = "["%char :: d ++ "]"%char :: ":"%char :: R
  /\ device_token ("["%char :: d ++ "]"%char :: ":"%char :: R) = (d, ":"%char :: R).
Proof.
  intros Hd. split; [now apply skip_stop|].
  rewrite device_token_bracket, scan_app_stop; [reflexivity | | reflexivity].
  eapply Forall_impl; [|exact Hd]. intros c Hc.
  apply plain_byte_spec in Hc. destruct Hc as (_ & _ & _ & Hc).
  unfold is_not. now destruct (Ascii.eqb_spec c "]"%char).
Qed.

(** One turn of the loop on a printed entry, followed by the end of
    the text or by the comma of the next entry, gives the record back
    and leaves what follows that comma. *)
Lemma parse_entry_printed (i : listen_interface_t) (T : text) :
  plain_device (device i) -> 0 <= port i <= 65535 ->
  T = [] \/ hd_error T = Some ","%char ->
  parse_entry (entry_text is_address_v6 i ++ T) = Some (i, after_first ","%char T).
Proof.
  destruct i as [d p b]; cbn [device port ssl]. intros Hd Hp HT.
  destruct (to_string_port p Hp) as (Hdig & Hne & Hport).
  unfold entry_text; cbn [device port ssl].
  set (ds := to_string p) in *.
  set (X := (if b then $"s" else []) ++ T).
  assert (stops port_byte X /\ skip is_space X = X
          /\ fst (accept "s"%char X) = b
          /\ after_first ","%char X = after_first ","%char T) as (HX1 & HX5 & HX3 & HX4).
  { unfold X. destruct b; cbn; [repeat split; reflexivity|].
    destruct HT as [-> | HT]; [repeat split; reflexivity|].
    destruct T as [|c T]; [discriminate HT|]. injection HT as ->.
    repeat split; reflexivity. }
  assert (skip is_space (ds ++ X) = ds ++ X) as Hds.
  { destruct ds as [|c ds']; [congruence|].
    apply skip_stop, digit_not_space. exact (Forall_inv Hdig). }
  assert (scan port_byte (ds ++ X) = (ds, X)) as Hscan.
  { apply scan_app_stop; [|exact HX1].
    eapply Forall_impl; [|exact Hdig]. intros c. apply digit_port_byte. }
  assert (skip is_space
            ((if is_address_v6 d then $"[" ++ d ++ $"]" else d)
             ++ $":" ++ ds ++ X)
          = (if is_address_v6 d then $"[" ++ d ++ $"]" else d) ++ $":" ++ ds ++ X
          /\ device_token
               ((if is_address_v6 d then $"[" ++ d ++ $"]" else d)
                ++ $":" ++ ds ++ X)
             = (d, ":"%char :: ds ++ X)) as (Hskip & Htok).
  { destruct (is_address_v6 d).
    - repeat (rewrite <- ?app_assoc; cbn [app list_ascii_of_string]).
      now apply device_token_printed_bracket.
    - cbn [app list_ascii_of_string]. now apply device_token_printed_plain. }
  assert (((if is_address_v6 d then $"[" ++ d ++ $"]" else d)
           ++ $":" ++ ds ++ (if b then $"s" else [])) ++ T
          = (if is_address_v6 d then $"[" ++ d ++ $"]" else d)
            ++ $":" ++ ds ++ X) as ->
    by (unfold X; now rewrite <- !app_assoc).
  assert (colon_cursor
            ((if is_address_v6 d then $"[" ++ d ++ $"]" else d) ++ $":" ++ ds ++ X)
          = ":"%char :: ds ++ X) as Hc.
  { unfold colon_cursor. rewrite Hskip, Htok. now apply skip_stop. }
  rewrite (parse_entry_colon _ _ Hc), Hskip, Htok, Hds, Hscan. cbn [fst snd].
  now rewrite Hport, HX5, HX3, HX4.
Qed.

Lemma parse_listen_interfaces_loop_step
  (s : text) (out : list listen_interface_t) (i : listen_interface_t) (rest : text) :
  parse_entry s = Some (i, rest) ->
  parse_listen_interfaces_loop s out
  = parse_listen_interfaces_loop rest (push_valid out i).
Proof.
  intros H. rewrite parse_listen_interfaces_loop_eq.
  destruct s as [|c r]; [discriminate H | now rewrite H].
Qed.

(** The loop on the printed form of [x :: xs] pushes exactly these
    records, in order. *)
Lemma parse_printed_entries (xs : list listen_interface_t) :
  forall (x : listen_interface_t) (out : list listen_interface_t),
    Forall (fun i => plain_device (device i) /\ 0 <= port i <= 65535) (x :: xs) ->
    parse_listen_interfaces_loop (entry_text is_address_v6 x ++ entries_text is_address_v6 xs) out
    = out ++ x :: xs.
Proof.
  induction xs as [|y ys IH]; intros x out Hall;
    inversion Hall as [|? ? [Hd Hp] Hrest]; subst.
  - rewrite (parse_listen_interfaces_loop_step _ out x (after_first ","%char []))
      by (apply parse_entry_printed; auto).
    unfold push_valid. destruct (Z.leb_spec 0 (port x)); [|lia].
    now rewrite parse_listen_interfaces_loop_eq.
  - unfold entries_text; cbn [map concat]. fold (entries_text is_address_v6 ys).
    rewrite (parse_listen_interfaces_loop_step _ out x
               (after_first ","%char (","%char :: entry_text is_address_v6 y ++ entries_text is_address_v6 ys)))
      by (apply parse_entry_printed; auto).
    unfold push_valid. destruct (Z.leb_spec 0 (port x)); [|lia].
    cbn [after_first Ascii.eqb Bool.eqb]. rewrite IH by assumption.
    now rewrite <- app_assoc.
Qed.

(** C1.  For every sequence of listen interface records (a record's
    port is an integer in [0, 65535]) whose device texts hold no white
    space, comma, colon or square bracket, parsing the printed form
    gives the sequence back exactly, whichever devices the address
    check decides to bracket. *)
Theorem print_parse_round_trip (xs : list listen_interface_t) :
  Forall (fun i => plain_device (device i) /\ 0 <= port i <= 65535) xs ->
  parse_listen_interfaces (print_listen_interfaces is_address_v6 xs) = xs.
Proof.
  intros Hall. destruct xs as [|x xs]; [reflexivity|].
  rewrite print_listen_interfaces_cons. unfold parse_listen_interfaces.
  now rewrite parse_printed_entries.
Qed.

End RoundTrip.

Lemma print_parse_round_trip_witness :
  Forall (fun i => plain_device (device i) /\ 0 <= port i <= 65535)
    [mk_listen_interface $"eth0" 6881 false; mk_listen_interface $"lo" 0 true;
     mk_listen_interface [] 65535 false]
  /\ parse_listen_interfaces
       (print_listen_interfaces (fun d => (length d =? 2)%nat)
          [mk_listen_interface $"eth0" 6881 false; mk_listen_interface $"lo" 0 true;
           mk_listen_interface [] 65535 false])
     = [mk_listen_interface $"eth0" 6881 false; mk_listen_interface $"lo" 0 true;
        mk_listen_interface [] 65535 false].
Proof.
  assert (Forall (fun i => plain_device (device i) /\ 0 <= port i <= 65535)
            [mk_listen_interface $"eth0" 6881 false; mk_listen_interface $"lo" 0 true;
             mk_listen_interface [] 65535 false]) as Hall.
  { repeat (constructor; [split; [repeat constructor | simpl; lia]|]). constructor. }
  split; [exact Hall|].
  exact (print_parse_round_trip (fun d => (length d =? 2)%nat) _ Hall).
Defined.

Example print_listen_interfaces_brackets :
  print_listen_interfaces (fun d => (length d =? 2)%nat)
    [mk_listen_interface $"eth0" 6881 false; mk_listen_interface $"lo" 0 true;
     mk_listen_interface [] 65535 false]
  = $"eth0:6881,[lo]:0s,:65535".
Proof. reflexivity. Qed.

(** The port range of a record is what the round trip rests on: the
    printer writes any [int], and the parser's port guard drops what
    lies outside [0, 65535]. *)
Lemma out_of_range_port_not_round_tripped :
  plain_device (device (mk_listen_interface $"eth0" 70000 false))
  /\ print_listen_interfaces (fun _ => false) [mk_listen_interface $"eth0" 70000 false]
     = $"eth0:70000"
  /\ parse_listen_interfaces
       (print_listen_interfaces (fun _ => false) [mk_listen_interface $"eth0" 70000 false])
     = []
  /\ parse_listen_interfaces
       (print_listen_interfaces (fun _ => false) [mk_listen_interface $"eth0" 70000 false])
     <> [mk_listen_interface $"eth0" 70000 false].
Proof.
  split; [repeat constructor|]. split; [reflexivity|]. split; [reflexivity|].
  discriminate.
Qed.

(** ** The comma separated list parsers *)

Lemma fields_not_nil (s : text) : fields s <> [].
Proof.
  induction s as [|c r IH]; simpl; [discriminate|].
  destruct (Ascii.eqb c ","%char); [discriminate|].
  destruct (fields r); [congruence | discriminate].
Qed.

Lemma fields_single (F : text) : ~ In ","%char F -> fields F = [F].
Proof.
  induction F as [|c F IH]; intros H; simpl; [reflexivity|].
  destruct (Ascii.eqb_spec c ","%char) as [-> | _]; [exfalso; apply H; now left|].
  rewrite IH; [reflexivity | intros Hin; apply H; now right].
Qed.

Lemma fields_comma (F r : text) :
  ~ In ","%char F -> fields (F ++ ","%char :: r) = F :: fields r.
Proof.
  induction F as [|c F IH]; intros H; simpl; [reflexivity|].
  destruct (Ascii.eqb_spec c ","%char) as [-> | _]; [exfalso; apply H; now left|].
  rewrite IH; [reflexivity | intros Hin; apply H; now right].
Qed.

(** Every text is its first field followed by nothing or by a comma and
    the remaining text. *)
Lemma first_field (t : text) :
  exists F B, t = F ++ B /\ ~ In ","%char F
              /\ (B = [] \/ exists r, B = ","%char :: r).
Proof.
  destruct (scan_spec (is_not ","%char) t) as (E & Ha & Hr).
  exists (fst (scan (is_not ","%char) t)), (snd (scan (is_not ","%char) t)).
  split; [exact E|]. split; [now apply is_not_Forall|].
  apply stops_is_not in Hr. destruct Hr as [Hr | Hr]; [now left|].
  destruct (snd (scan (is_not ","%char) t)) as [|x r]; [discriminate Hr|].
  injection Hr as ->. right. now exists r.
Qed.

Lemma emitted_fields_single (F : text) :
  ~ In ","%char F -> F <> [] -> emitted_fields F = [F].
Proof.
  intros H Hne. unfold emitted_fields. rewrite fields_single by assumption.
  simpl. destruct F; [congruence | reflexivity].
Qed.

Lemma emitted_fields_comma (F r : text) :
  ~ In ","%char F -> emitted_fields (F ++ ","%char :: r) = F :: emitted_fields r.
Proof.
  intros H. unfold emitted_fields. rewrite fields_comma by assumption.
  pose proof (fields_not_nil r) as Hne.
  destruct (fields r) as [|f fs] eqn:Ef; [congruence|].
  change (last (F :: f :: fs) []) with (last (f :: fs) []).
  destruct (last (f :: fs) []); reflexivity.
Qed.

(** *** Positions inside a window [A ++ F ++ B] of the input *)

Lemma skipn_window (A t : text) (k : nat) :
  skipn (length A + k) (A ++ t) = skipn k t.
Proof. induction A as [|a A IH]; simpl; [reflexivity | exact IH]. Qed.

Lemma char_at_window (A F B : text) (j : nat) :
  (j < length F)%nat -> char_at (A ++ F ++ B) (length A + j) = char_at F j.
Proof.
  intros H. unfold char_at. rewrite app_nth2_plus. now apply app_nth1.
Qed.

Lemma substr_window (A F B : text) (k m : nat) :
  (k + m <= length F)%nat -> substr (A ++ F ++ B) (length A + k) m = substr F k m.
Proof.
  intros H. unfold substr. rewrite skipn_window, skipn_app, firstn_app.
  rewrite length_skipn.
  replace (m - (length F - k))%nat with 0%nat by lia.
  now rewrite firstn_O, app_nil_r.
Qed.

Lemma scan_window (F B : text) :
  ~ In ","%char F -> B = [] \/ (exists r, B = ","%char :: r) ->
  fst (scan is_space (F ++ B)) = fst (scan is_space F).
Proof.
  intros _ HB. destruct (scan_spec is_space F) as (E & Ha & Hr).
  rewrite E at 1. rewrite <- app_assoc, scan_app_stop; [reflexivity | exact Ha |].
  destruct (snd (scan is_space F)) as [|x r]; [|exact Hr].
  destruct HB as [-> | [r ->]]; reflexivity.
Qed.

Lemma skip_from_window (A F B : text) :
  ~ In ","%char F -> B = [] \/ (exists r, B = ","%char :: r) ->
  skip_from is_space (A ++ F ++ B) (length A)
  = (length A + skip_from is_space F 0)%nat.
Proof.
  intros HF HB. unfold skip_from.
  rewrite <- (Nat.add_0_r (length A)) at 2. rewrite skipn_window. cbn [skipn].
  now rewrite scan_window.
Qed.

Lemma skip_from_skipn (F : text) :
  skipn (skip_from is_space F 0) F = skip is_space F.
Proof.
  unfold skip_from, skip. cbn [skipn Nat.add].
  destruct (scan_spec is_space F) as (E & _ & _).
  rewrite E at 2. now rewrite skipn_app, skipn_all, Nat.sub_diag.
Qed.

Lemma index_of_absent (c : ascii) (l : text) : ~ In c l -> index_of c l = None.
Proof.
  induction l as [|x l IH]; intros H; simpl; [reflexivity|].
  destruct (Ascii.eqb_spec x c) as [-> | _]; [exfalso; apply H; now left|].
  rewrite IH; [reflexivity | intros Hin; apply H; now right].
Qed.

Lemma index_of_first (c : ascii) (l r : text) :
  ~ In c l -> index_of c (l ++ c :: r) = Some (length l).
Proof.
  induction l as [|x l IH]; intros H; simpl; [now rewrite Ascii.eqb_refl|].
  destruct (Ascii.eqb_spec x c) as [-> | _]; [exfalso; apply H; now left|].
  rewrite IH; [reflexivity | intros Hin; apply H; now right].
Qed.

Lemma field_end_window (A F B : text) (k : nat) :
  ~ In ","%char F -> B = [] \/ (exists r, B = ","%char :: r) ->
  (k <= length F)%nat ->
  field_end (A ++ F ++ B) (length A + k) = (length A + length F)%nat.
Proof.
  intros HF HB Hk. unfold field_end, find_first_of.
  rewrite skipn_window, skipn_app.
  replace (k - length F)%nat with 0%nat by lia. cbn [skipn].
  assert (~ In ","%char (skipn k F)) as HF'.
  { intros Hin. apply HF. rewrite <- (firstn_skipn k F). apply in_or_app. now right. }
  destruct HB as [-> | [r ->]].
  - rewrite app_nil_r, index_of_absent by assumption. simpl.
    now rewrite !length_app, Nat.add_0_r.
  - rewrite index_of_first by assumption. simpl. rewrite length_skipn. lia.
Qed.

Lemma trim_back_stop (s : text) (start e : nat) :
  (e <= start)%nat -> trim_back s start e = e.
Proof.
  intros H. destruct e as [|e]; [reflexivity|]. simpl.
  destruct (Nat.ltb_spec start (S e)); [lia | reflexivity].
Qed.

Lemma trim_back_window (A F B : text) (k : nat) :
  forall e, (e <= length F)%nat ->
    trim_back (A ++ F ++ B) (length A + k) (length A + e)
    = (length A + trim_back F k e)%nat.
Proof.
  induction e as [|e IH]; intros He.
  - rewrite trim_back_stop by lia. simpl. lia.
  - rewrite Nat.add_succ_r. cbn [trim_back].
    rewrite char_at_window by lia.
    replace (length A + k <? S (length A + e))%nat with (k <? S e)%nat
      by (destruct (Nat.ltb_spec k (S e)), (Nat.ltb_spec (length A + k) (S (length A + e)));
          trivial; lia).
    destruct ((k <? S e)%nat && is_space (char_at F e)); [apply IH; lia | lia].
Qed.

(** *** Trimming *)

Lemma trim_right_snoc (g : text) (x : ascii) :
  trim_right (g ++ [x]) = if is_space x then trim_right g else g ++ [x].
Proof.
  unfold trim_right. rewrite rev_app_distr. cbn [rev app].
  rewrite skip_cons. destruct (is_space x); [reflexivity|].
  cbn [rev]. now rewrite rev_involutive.
Qed.

Lemma firstn_snoc (l : text) :
  forall n, (n < length l)%nat -> firstn (S n) l = firstn n l ++ [char_at l n].
Proof.
  unfold char_at. induction l as [|x l IH]; intros n H; [simpl in H; lia|].
  destruct n as [|n]; [reflexivity|].
  cbn [firstn app nth]. rewrite <- IH by (simpl in H; lia). reflexivity.
Qed.

Lemma char_at_skipn (l : text) (k j : nat) :
  char_at (skipn k l) j = char_at l (k + j).
Proof.
  unfold char_at. revert l. induction k as [|k IH]; intros l; [reflexivity|].
  destruct l as [|x l]; [now destruct j | apply IH].
Qed.

Lemma trim_back_le (s : text) (start : nat) :
  forall e, (trim_back s start e <= e)%nat.
Proof.
  induction e as [|e IH]; simpl; [lia|].
  destruct (_ && _); lia.
Qed.

(** The backward loop removes exactly the trailing white space of the
    bytes between [start] and [e]. *)
Lemma trim_back_trim (F : text) (k : nat) :
  forall e, (k <= e <= length F)%nat ->
    firstn (trim_back F k e - k) (skipn k F)
    = trim_right (firstn (e - k) (skipn k F)).
Proof.
  induction e as [|e IH]; intros He.
  - assert (k = 0)%nat as -> by lia. reflexivity.
  - destruct (Nat.eq_dec k (S e)) as [-> | Hne].
    + rewrite trim_back_stop by lia. now rewrite Nat.sub_diag.
    + cbn [trim_back]. destruct (Nat.ltb_spec k (S e)); [|lia]. cbn [andb].
      replace (S e - k)%nat with (S (e - k)) by lia.
      rewrite (firstn_snoc (skipn k F)) by (rewrite length_skipn; lia).
      rewrite char_at_skipn. replace (k + (e - k))%nat with e by lia.
      rewrite trim_right_snoc.
      destruct (is_space (char_at F e)); [apply IH; lia|].
      replace (S e - k)%nat with (S (e - k)) by lia.
      rewrite (firstn_snoc (skipn k F)) by (rewrite length_skipn; lia).
      rewrite char_at_skipn. now replace (k + (e - k))%nat with e by lia.
Qed.

Lemma trimmed_field_window (A F B : text) :
  trimmed_field (A ++ F ++ B) (length A + skip_from is_space F 0)
    (length A + length F)
  = trim F.
Proof.
  pose proof (skip_from_bound is_space F 0 ltac:(lia)) as Hk.
  set (k := skip_from is_space F 0) in *.
  unfold trimmed_field. rewrite trim_back_window by lia.
  pose proof (trim_back_le F k (length F)) as Hle.
  replace (length A + trim_back F k (length F) - (length A + k))%nat
    with (trim_back F k (length F) - k)%nat by lia.
  rewrite substr_window by lia. unfold substr.
  rewrite trim_back_trim by lia.
  rewrite firstn_all2 by (rewrite length_skipn; lia).
  unfold trim, k. now rewrite skip_from_skipn.
Qed.

(** *** [parse_comma_separated_string] *)

Lemma parse_comma_separated_string_loop_eq (inp : text) (start : nat) (out : list text) :
  parse_comma_separated_string_loop inp start out =
  if (start <? length inp)%nat then
    parse_comma_separated_string_loop inp
      (field_end inp (skip_from is_space inp start) + 1)
      (out ++ [trimmed_field inp (skip_from is_space inp start)
                 (field_end inp (skip_from is_space inp start))])
  else out.
Proof.
  simp parse_comma_separated_string_loop.
  destruct (lt_dec start (length inp)) as [H | H];
    simp parse_comma_separated_string_loop;
    destruct (Nat.ltb_spec start (length inp)); solve [reflexivity | lia].
Qed.

(** One turn of the loop on the field [F] that starts at the cursor. *)
Lemma parse_comma_separated_string_turn (A F B : text) (out : list text) :
  ~ In ","%char F -> B = [] \/ (exists r, B = ","%char :: r) -> F ++ B <> [] ->
  parse_comma_separated_string_loop (A ++ F ++ B) (length A) out
  = parse_comma_separated_string_loop (A ++ F ++ B) (length A + length F + 1)
      (out ++ [trim F]).
Proof.
  intros HF HB Hne. rewrite parse_comma_separated_string_loop_eq.
  destruct (Nat.ltb_spec (length A) (length (A ++ F ++ B))) as [_ | Hlen].
  - rewrite skip_from_window by assumption.
    rewrite field_end_window
      by (trivial; apply (skip_from_bound is_space F 0); lia).
    now rewrite trimmed_field_window.
  - rewrite length_app in Hlen. destruct (F ++ B); [congruence | simpl in Hlen; lia].
Qed.

Lemma parse_comma_separated_string_from (n : nat) :
  forall (A t : text) (out : list text),
    (length t <= n)%nat ->
    parse_comma_separated_string_loop (A ++ t) (length A) out
    = out ++ map trim (emitted_fields t).
Proof.
  induction n as [|n IH]; intros A t out Hn.
  - destruct t; [|simpl in Hn; lia].
    rewrite parse_comma_separated_string_loop_eq, app_nil_r, Nat.ltb_irrefl.
    now rewrite app_nil_r.
  - destruct t as [|c t'] eqn:Et.
    { rewrite parse_comma_separated_string_loop_eq, app_nil_r, Nat.ltb_irrefl.
      now rewrite app_nil_r. }
    rewrite <- Et in *. assert (t <> []) as Hne by (subst; discriminate).
    destruct (first_field t) as (F & B & E & HF & HB).
    rewrite E in *. rewrite parse_comma_separated_string_turn by assumption.
    destruct HB as [-> | [r ->]].
    + rewrite app_nil_r in *.
      rewrite parse_comma_separated_string_loop_eq.
      destruct (Nat.ltb_spec (length A + length F + 1) (length (A ++ F)))
        as [Hlt | _]; [rewrite length_app in Hlt; lia|].
      now rewrite emitted_fields_single.
    + replace (A ++ F ++ ","%char :: r) with ((A ++ F ++ $",") ++ r)
        by (now rewrite <- !app_assoc).
      replace (length A + length F + 1)%nat with (length (A ++ F ++ $","))
        by (rewrite !length_app; simpl; lia).
      rewrite IH.
      * rewrite emitted_fields_comma by assumption. simpl.
        now rewrite <- app_assoc.
      * rewrite length_app in Hn. simpl in Hn. lia.
Qed.

Lemma fields_snoc_comma (s : text) : fields (s ++ $",") = fields s ++ [[]].
Proof.
  induction s as [|c r IH]; [reflexivity|]. cbn [app fields].
  rewrite IH. destruct (Ascii.eqb c ","%char); [reflexivity|].
  pose proof (fields_not_nil r). destruct (fields r); [congruence | reflexivity].
Qed.

Lemma emitted_fields_snoc_comma (s : text) : emitted_fields (s ++ $",") = fields s.
Proof.
  unfold emitted_fields. rewrite fields_snoc_comma, last_last.
  apply removelast_last.
Qed.

(** The final field is empty only for the empty text and for a text
    that ends with a comma. *)
Lemma last_field_empty (s : text) :
  last (fields s) [] = [] -> s = [] \/ last s "x"%char = ","%char.
Proof.
  induction s as [|c r IH]; [now left|]. cbn [fields].
  pose proof (fields_not_nil r) as Hne.
  destruct (Ascii.eqb_spec c ","%char) as [-> | Hc].
  - destruct (fields r) as [|f fs] eqn:Ef; [congruence|].
    change (last ([] :: f :: fs) []) with (last (f :: fs) []).
    intros H. right. destruct (IH H) as [-> | Hl]; [reflexivity|].
    destruct r; [discriminate Hl | exact Hl].
  - destruct (fields r) as [|f fs] eqn:Ef; [congruence|].
    destruct fs as [|g fs]; [discriminate|].
    change (last ((c :: f) :: g :: fs) []) with (last (f :: g :: fs) []).
    intros H. right. destruct (IH H) as [-> | Hl]; [discriminate Ef|].
    destruct r; [discriminate Hl | exact Hl].
Qed.

Lemma emitted_fields_all (s : text) :
  s <> [] -> last s "x"%char <> ","%char -> emitted_fields s = fields s.
Proof.
  intros Hne Hl. unfold emitted_fields.
  destruct (last (fields s) []) as [|c f] eqn:E; [|reflexivity].
  destruct (last_field_empty s E); contradiction.
Qed.

Lemma parse_comma_separated_string_emitted (s : text) :
  parse_comma_separated_string s = map trim (emitted_fields s).
Proof.
  unfold parse_comma_separated_string.
  exact (parse_comma_separated_string_from (length s) [] s [] (Nat.le_refl _)).
Qed.

(** C7, as the code has it.  The result holds one element for every
    comma-delimited field, in order, each without its leading and
    trailing white space, empty fields as empty strings; except that a
    final field of length zero gives no element: the empty input gives
    nothing, and an input that ends with a comma gives one element for
    each field of the text before that comma.  So ["a, b ,c"] gives
    ["a"], ["b"], ["c"]. *)
Theorem parse_comma_separated_string_fields :
  (forall s : text,
      s <> [] -> last s "x"%char <> ","%char ->
      parse_comma_separated_string s = map trim (fields s))
  /\ (forall s : text, parse_comma_separated_string (s ++ $",") = map trim (fields s))
  /\ parse_comma_separated_string [] = []
  /\ parse_comma_separated_string $"a, b ,c" = [$"a"; $"b"; $"c"].
Proof.
  split; [|split; [|split]].
  - intros s Hne Hl.
    now rewrite parse_comma_separated_string_emitted, emitted_fields_all.
  - intros s.
    now rewrite parse_comma_separated_string_emitted, emitted_fields_snoc_comma.
  - now rewrite parse_comma_separated_string_emitted.
  - now rewrite parse_comma_separated_string_emitted.
Qed.

Lemma parse_comma_separated_string_fields_witness :
  $" a ,, b c " <> []
  /\ last $" a ,, b c " "x"%char <> ","%char
  /\ parse_comma_separated_string $" a ,, b c " = map trim (fields $" a ,, b c ").
Proof.
  assert ($" a ,, b c " <> []) as Hne by discriminate.
  assert (last $" a ,, b c " "x"%char <> ","%char) as Hl by discriminate.
  split; [exact Hne|]. split; [exact Hl|].
  exact (proj1 parse_comma_separated_string_fields _ Hne Hl).
Defined.

(** C7 as stated fails: ["a,"] has two fields, the second one empty, and
    the result has one element. *)
Lemma trailing_empty_field_not_emitted :
  fields $"a," = [$"a"; []]
  /\ parse_comma_separated_string $"a," = [$"a"]
  /\ parse_comma_separated_string $"a," <> map trim (fields $"a,").
Proof. split; [reflexivity|]. split; [reflexivity | discriminate]. Qed.

Example parse_comma_separated_string_examples :
  parse_comma_separated_string [] = []
  /\ parse_comma_separated_string $"a,,b" = [$"a"; []; $"b"]
  /\ parse_comma_separated_string $",a" = [[]; $"a"]
  /\ parse_comma_separated_string $"a, " = [$"a"; []]
  /\ parse_comma_separated_string $" a b  ,c" = [$"a b"; $"c"].
Proof. repeat split; reflexivity. Qed.

(** *** [parse_comma_separated_string_port] *)

Lemma rindex_of_app (c : ascii) (l1 l2 : text) :
  rindex_of c (l1 ++ l2)
  = match rindex_of c l2 with
    | Some k => Some (length l1 + k)%nat
    | None => rindex_of c l1
    end.
Proof.
  induction l1 as [|x l1 IH]; simpl.
  - now destruct (rindex_of c l2).
  - rewrite IH. now destruct (rindex_of c l2).
Qed.

Lemma rindex_of_lt (c : ascii) (l : text) (k : nat) :
  rindex_of c l = Some k -> (k < length l)%nat.
Proof.
  revert k. induction l as [|x l IH]; intros k; simpl; [discriminate|].
  destruct (rindex_of c l) as [j|].
  - intros [= <-]. specialize (IH j eq_refl). lia.
  - destruct (Ascii.eqb x c); [intros [= <-]; lia | discriminate].
Qed.

Lemma rindex_of_cons_some (c : ascii) (r : text) :
  exists j, rindex_of c (c :: r) = Some j.
Proof.
  simpl. destruct (rindex_of c r) as [j|]; [now exists (S j)|].
  rewrite Ascii.eqb_refl. now exists O.
Qed.

(** The last occurrence splits the text. *)
Lemma rindex_of_split (c : ascii) (l : text) (k : nat) :
  rindex_of c l = Some k -> exists a b, l = a ++ c :: b /\ length a = k.
Proof.
  revert k. induction l as [|x l IH]; intros k; simpl; [discriminate|].
  destruct (rindex_of c l) as [j|].
  - intros [= <-]. destruct (IH j eq_refl) as (a & b & -> & <-).
    now exists (x :: a), b.
  - destruct (Ascii.eqb_spec x c) as [-> | _]; [|discriminate].
    intros [= <-]. now exists [], l.
Qed.

Lemma firstn_window (A t : text) (n : nat) :
  firstn (length A + n) (A ++ t) = A ++ firstn n t.
Proof. induction A as [|a A IH]; simpl; [reflexivity | now rewrite IH]. Qed.

Lemma find_last_of_window (A F B : text) :
  B = [] \/ (exists r, B = ","%char :: r) ->
  find_last_of (A ++ F ++ B) ":"%char (length A + length F)
  = match rindex_of ":"%char F with
    | Some k => Some (length A + k)%nat
    | None => rindex_of ":"%char A
    end.
Proof.
  intros HB. unfold find_last_of.
  replace (S (length A + length F)) with (length A + (length F + 1))%nat by lia.
  rewrite !firstn_window, !rindex_of_app.
  assert (rindex_of ":"%char (firstn 1 B) = None) as ->
    by (destruct HB as [-> | [r ->]]; reflexivity).
  now destruct (rindex_of ":"%char F).
Qed.

Lemma find_last_of_whole (F : text) :
  find_last_of F ":"%char (length F) = rindex_of ":"%char F.
Proof. unfold find_last_of. now rewrite firstn_all2 by lia. Qed.

(** The body of the loop reads nothing outside the field it handles. *)
Lemma name_port_field_window (A F B : text) (k1 : nat) :
  B = [] \/ (exists r, B = ","%char :: r) ->
  name_port_field (A ++ F ++ B) (length A + k1) (length A + length F)
  = name_port_field F k1 (length F).
Proof.
  intros HB. unfold name_port_field.
  rewrite find_last_of_window, find_last_of_whole by assumption.
  destruct (rindex_of ":"%char F) as [k|] eqn:Ek.
  - pose proof (rindex_of_lt _ _ _ Ek) as Hk.
    replace (length A + k1 <? length A + k)%nat with (k1 <? k)%nat
      by (destruct (Nat.ltb_spec k1 k), (Nat.ltb_spec (length A + k1) (length A + k));
          trivial; lia).
    destruct (Nat.ltb_spec k1 k) as [Hlt | _]; [|reflexivity].
    replace (length A + k + 1)%nat with (length A + (k + 1))%nat by lia.
    replace (length A + length F - (length A + k) - 1)%nat
      with (length F - k - 1)%nat by lia.
    rewrite substr_window by lia.
    rewrite trim_back_window by lia.
    rewrite char_at_window by lia.
    pose proof (trim_back_le F k1 k) as Hse.
    set (se := trim_back F k1 k) in *.
    set (s' := if Ascii.eqb (char_at F k1) "["%char then S k1 else k1).
    replace (if Ascii.eqb (char_at F k1) "["%char then S (length A + k1)
             else (length A + k1)%nat)
      with (length A + s')%nat
      by (unfold s'; destruct (Ascii.eqb (char_at F k1) "["%char); lia).
    assert (s' <= S k1)%nat as Hs'
      by (unfold s'; destruct (Ascii.eqb (char_at F k1) "["%char); lia).
    replace (length A + s' <? length A + se)%nat with (s' <? se)%nat
      by (destruct (Nat.ltb_spec s' se), (Nat.ltb_spec (length A + s') (length A + se));
          trivial; lia).
    destruct (Nat.ltb_spec s' se) as [Hlt' | Hge]; cbn [andb].
    + replace (length A + se - 1)%nat with (length A + (se - 1))%nat by lia.
      rewrite char_at_window by lia.
      destruct (Ascii.eqb (char_at F (se - 1)) "]"%char).
      * replace (length A + (se - 1) - (length A + s'))%nat with (se - 1 - s')%nat by lia.
        now rewrite substr_window by lia.
      * replace (length A + se - (length A + s'))%nat with (se - s')%nat by lia.
        now rewrite substr_window by lia.
    + replace (length A + se - (length A + s'))%nat with (se - s')%nat by lia.
      now rewrite substr_window by lia.
  - destruct (rindex_of ":"%char A) as [j|] eqn:Ej; [|reflexivity].
    pose proof (rindex_of_lt _ _ _ Ej).
    destruct (Nat.ltb_spec (length A + k1) j); [lia | reflexivity].
Qed.

Lemma parse_comma_separated_string_port_loop_eq
  (inp : text) (start : nat) (out : list (text * Z)) :
  parse_comma_separated_string_port_loop inp start out =
  if (start <? length inp)%nat then
    parse_comma_separated_string_port_loop inp
      (field_end inp (skip_from is_space inp start) + 1)
      (push_opt out
         (name_port_field inp (skip_from is_space inp start)
            (field_end inp (skip_from is_space inp start))))
  else out.
Proof.
  simp parse_comma_separated_string_port_loop.
  destruct (lt_dec start (length inp)) as [H | H];
    simp parse_comma_separated_string_port_loop;
    destruct (Nat.ltb_spec start (length inp)); solve [reflexivity | lia].
Qed.

Lemma parse_comma_separated_string_port_turn
  (A F B : text) (out : list (text * Z)) :
  ~ In ","%char F -> B = [] \/ (exists r, B = ","%char :: r) -> F ++ B <> [] ->
  parse_comma_separated_string_port_loop (A ++ F ++ B) (length A) out
  = parse_comma_separated_string_port_loop (A ++ F ++ B)
      (length A + length F + 1) (push_opt out (field_entry F)).
Proof.
  intros HF HB Hne. rewrite parse_comma_separated_string_port_loop_eq.
  destruct (Nat.ltb_spec (length A) (length (A ++ F ++ B))) as [_ | Hlen].
  - rewrite skip_from_window by assumption.
    rewrite field_end_window
      by (trivial; apply (skip_from_bound is_space F 0); lia).
    now rewrite name_port_field_window.
  - rewrite length_app in Hlen. destruct (F ++ B); [congruence | simpl in Hlen; lia].
Qed.

Lemma push_opt_app {A : Type} (out : list A) (e : option A) :
  push_opt out e = out ++ push_opt [] e.
Proof. destruct e; [reflexivity | now rewrite app_nil_r]. Qed.

(** A text without a comma is a single field. *)
Lemma parse_comma_separated_string_port_single (F : text) :
  ~ In ","%char F ->
  parse_comma_separated_string_port F = push_opt [] (field_entry F).
Proof.
  intros HF. unfold parse_comma_separated_string_port.
  destruct F as [|c F'] eqn:EF; [reflexivity|]. rewrite <- EF in *.
  pose proof (parse_comma_separated_string_port_turn [] F [] [] HF
                (or_introl eq_refl)) as H.
  rewrite !app_nil_r in H. cbn [app length Nat.add] in H.
  rewrite H by (subst; discriminate).
  rewrite parse_comma_separated_string_port_loop_eq.
  destruct (Nat.ltb_spec (length F + 1) (length F)); [lia | reflexivity].
Qed.

Lemma parse_comma_separated_string_port_from (n : nat) :
  forall (A t : text) (out : list (text * Z)),
    (length t <= n)%nat ->
    parse_comma_separated_string_port_loop (A ++ t) (length A) out
    = out ++ concat (map parse_comma_separated_string_port (fields t)).
Proof.
  induction n as [|n IH]; intros A t out Hn.
  - destruct t; [|simpl in Hn; lia].
    rewrite parse_comma_separated_string_port_loop_eq, app_nil_r, Nat.ltb_irrefl.
    now rewrite app_nil_r.
  - destruct t as [|c t'] eqn:Et.
    { rewrite parse_comma_separated_string_port_loop_eq, app_nil_r, Nat.ltb_irrefl.
      now rewrite app_nil_r. }
    rewrite <- Et in *. assert (t <> []) as Hne by (subst; discriminate).
    destruct (first_field t) as (F & B & E & HF & HB).
    rewrite E in *. rewrite parse_comma_separated_string_port_turn by assumption.
    destruct HB as [-> | [r ->]].
    + rewrite app_nil_r in *.
      rewrite parse_comma_separated_string_port_loop_eq.
      destruct (Nat.ltb_spec (length A + length F + 1) (length (A ++ F)))
        as [Hlt | _]; [rewrite length_app in Hlt; lia|].
      rewrite fields_single by assumption. cbn [map concat].
      rewrite app_nil_r, parse_comma_separated_string_port_single by assumption.
      apply push_opt_app.
    + replace (A ++ F ++ ","%char :: r) with ((A ++ F ++ $",") ++ r)
        by (now rewrite <- !app_assoc).
      replace (length A + length F + 1)%nat with (length (A ++ F ++ $","))
        by (rewrite !length_app; simpl; lia).
      rewrite IH by (rewrite length_app in Hn; simpl in Hn; lia).
      rewrite fields_comma by assumption. cbn [map concat].
      rewrite parse_comma_separated_string_port_single by assumption.
      rewrite (push_opt_app out). now rewrite <- app_assoc.
Qed.

Lemma field_entry_late_colon (F : text) (e : text * Z) :
  field_entry F = Some e -> late_colon F.
Proof.
  unfold field_entry, name_port_field. rewrite find_last_of_whole.
  destruct (rindex_of ":"%char F) as [k|] eqn:Ek; [|discriminate].
  destruct (Nat.ltb_spec (skip_from is_space F 0) k) as [Hlt | _]; [|discriminate].
  intros _. destruct (rindex_of_split _ _ _ Ek) as (a & b & E & Ha).
  unfold late_colon. rewrite <- skip_from_skipn.
  set (k1 := skip_from is_space F 0) in *.
  rewrite E, skipn_app. replace (k1 - length a)%nat with 0%nat by lia.
  cbn [skipn].
  destruct (skipn k1 a) as [|c r'] eqn:Es.
  - apply (f_equal (@length ascii)) in Es. rewrite length_skipn in Es.
    simpl in Es. lia.
  - exists c, (r' ++ ":"%char :: b). split; [reflexivity|].
    apply in_or_app. right. now left.
Qed.

Lemma late_colon_field_entry (F : text) :
  late_colon F -> exists e, field_entry F = Some e.
Proof.
  intros (c & r & Hs & Hin). rewrite <- skip_from_skipn in Hs.
  pose proof (skip_from_bound is_space F 0 ltac:(lia)) as Hk.
  unfold field_entry, name_port_field. rewrite find_last_of_whole.
  set (k1 := skip_from is_space F 0) in *.
  apply in_split in Hin. destruct Hin as (r1 & r2 & ->).
  assert (F = (firstn k1 F ++ c :: r1) ++ ":"%char :: r2) as E.
  { rewrite <- app_assoc. cbn [app]. rewrite <- Hs. symmetry. apply firstn_skipn. }
  assert (length (firstn k1 F ++ c :: r1) = k1 + S (length r1))%nat as Hl.
  { rewrite length_app, length_firstn. simpl. lia. }
  destruct (rindex_of_cons_some ":"%char r2) as [j Hj].
  assert (rindex_of ":"%char F = Some (k1 + S (length r1) + j)%nat) as ->.
  { rewrite E at 1. now rewrite rindex_of_app, Hj, Hl. }
  destruct (Nat.ltb_spec k1 (k1 + S (length r1) + j)); [|lia].
  eexists. reflexivity.
Qed.

(** C8, as the code has it.  The fields are handled one by one, each as
    if it were the whole input; a field gives exactly one entry when it
    holds a [":"] strictly behind its trim point, and none otherwise (a
    [":"] at the trim point itself does not count). *)
Theorem name_port_field_emitted :
  (forall s : text,
      parse_comma_separated_string_port s
      = concat (map parse_comma_separated_string_port (fields s)))
  /\ (forall F : text,
         ~ In ","%char F -> late_colon F ->
         exists e, parse_comma_separated_string_port F = [e])
  /\ (forall F : text,
         ~ In ","%char F -> ~ late_colon F ->
         parse_comma_separated_string_port F = []).
Proof.
  split; [|split].
  - intros s. unfold parse_comma_separated_string_port at 1.
    exact (parse_comma_separated_string_port_from (length s) [] s [] (Nat.le_refl _)).
  - intros F HF Hc. rewrite parse_comma_separated_string_port_single by assumption.
    destruct (late_colon_field_entry F Hc) as [e ->]. now exists e.
  - intros F HF Hc. rewrite parse_comma_separated_string_port_single by assumption.
    destruct (field_entry F) as [e|] eqn:E; [|reflexivity].
    exfalso. apply Hc. now apply field_entry_late_colon with (e := e).
Qed.

Lemma name_port_field_emitted_witness :
  ~ In ","%char $" [::1] :6881"
  /\ late_colon $" [::1] :6881"
  /\ exists e, parse_comma_separated_string_port $" [::1] :6881" = [e].
Proof.
  assert (~ In ","%char $" [::1] :6881") as HF
    by (simpl; intros H; repeat (destruct H as [H | H]; [discriminate H|]); exact H).
  assert (late_colon $" [::1] :6881") as Hc
    by (exists "["%char, $"::1] :6881"; split; [reflexivity | simpl; tauto]).
  split; [exact HF|]. split; [exact Hc|].
  exact (proj1 (proj2 name_port_field_emitted) _ HF Hc).
Defined.

(** C8 as stated fails: the field [":80"] holds a [":"] at its trim
    point, and no entry is emitted for it. *)
Lemma colon_at_trim_point_not_emitted :
  fields $":80" = [$":80"]
  /\ skip is_space $":80" = ":"%char :: $"80"
  /\ parse_comma_separated_string_port $":80" = [].
Proof. repeat split; reflexivity. Qed.

Example parse_comma_separated_string_port_examples :
  parse_comma_separated_string_port $"[::1]:6881" = [($"::1", 6881)]
  /\ parse_comma_separated_string_port $"a:1, b ,c : 7x,:9, d:e"
     = [($"a", 1); ($"c", 7); ($"d", 0)].
Proof. split; reflexivity. Qed.

(** * Further properties *)

(** ** Character classes *)

Ltac each_byte c :=
  destruct c as [[] [] [] [] [] [] [] []]; vm_compute; reflexivity.

Lemma to_lower_idempotent (c : ascii) : to_lower (to_lower c) = to_lower c.
Proof. each_byte c. Qed.

Lemma to_lower_changes (c : ascii) : Ascii.eqb (to_lower c) c = negb (is_upper c).
Proof. each_byte c. Qed.

Lemma to_lower_code (c : ascii) :
  code (to_lower c) = code c + (if is_upper c then 32 else 0).
Proof. each_byte c. Qed.

Lemma to_lower_classes (c : ascii) :
  is_alpha (to_lower c) = is_alpha c
  /\ is_print (to_lower c) = is_print c
  /\ is_space (to_lower c) = is_space c
  /\ is_digit (to_lower c) = is_digit c
  /\ is_upper (to_lower c) = false.
Proof. repeat split; each_byte c. Qed.

(** X1. [to_lower] changes exactly the 26 upper-case letters, each to
    the byte 32 above it; it is idempotent, never yields an upper-case
    letter, and keeps every byte in its classes. *)
Theorem to_lower_spec (c : ascii) :
  to_lower (to_lower c) = to_lower c
  /\ (to_lower c <> c <-> 65 <= code c <= 90)
  /\ code (to_lower c) = code c + (if is_upper c then 32 else 0)
  /\ is_upper (to_lower c) = false
  /\ is_alpha (to_lower c) = is_alpha c
  /\ is_print (to_lower c) = is_print c
  /\ is_space (to_lower c) = is_space c.
Proof.
  pose proof (to_lower_classes c) as (Ha & Hp & Hs & _ & Hu).
  pose proof (to_lower_changes c) as Hc.
  assert (is_upper c = true <-> 65 <= code c <= 90) as Hup.
  { unfold is_upper. change (code "A"%char) with 65. change (code "Z"%char) with 90.
    rewrite andb_true_iff, !Z.leb_le. tauto. }
  split; [apply to_lower_idempotent|].
  split; [|split; [apply to_lower_code | tauto]].
  rewrite <- Hup. destruct (is_upper c); cbn [negb] in Hc.
  - split; [reflexivity|]. intros _.
    destruct (Ascii.eqb_spec (to_lower c) c); [discriminate | assumption].
  - split; [|discriminate]. intros Hne.
    destruct (Ascii.eqb_spec (to_lower c) c); [contradiction | discriminate].
Qed.

(** X2. The classes are nested as expected: letters and digits are
    printable and disjoint, white space is never a letter or a digit,
    and the blank is the only printable white-space byte. *)
Theorem character_classes (c : ascii) :
  (is_alpha c = true -> is_print c = true /\ is_digit c = false /\ is_space c = false)
  /\ (is_digit c = true -> is_print c = true /\ is_space c = false)
  /\ (is_space c = true -> is_print c = true -> c = " "%char)
  /\ is_print zero = false /\ is_space zero = false.
Proof.
  split; [|split; [|split; [|split; reflexivity]]];
    destruct c as [[] [] [] [] [] [] [] []]; vm_compute;
    try (intros; (congruence || (split; congruence) || (repeat split; congruence))).
Qed.

Lemma character_classes_witness :
  is_alpha "q"%char = true
  /\ is_print "q"%char = true /\ is_digit "q"%char = false /\ is_space "q"%char = false.
Proof.
  split; [reflexivity|].
  exact (proj1 (character_classes "q"%char) eq_refl).
Defined.

(** ** Comparing strings *)

Lemma std_equal_same_length (p : ascii -> ascii -> bool) (s1 : text) :
  forall s2, length s1 = length s2 ->
    (std_equal p s1 s2 = true <-> Forall2 (fun a b => p a b = true) s1 s2).
Proof.
  induction s1 as [|c1 r1 IH]; intros [|c2 r2] Hl; try discriminate Hl; simpl.
  - split; [constructor | reflexivity].
  - rewrite andb_true_iff, IH by (simpl in Hl; lia). split.
    + intros [H1 H2]. now constructor.
    + intros H. inversion H; subst. now split.
Qed.

Lemma Forall2_to_lower (s1 s2 : text) :
  Forall2 (fun a b => Ascii.eqb (to_lower a) (to_lower b) = true) s1 s2
  <-> map to_lower s1 = map to_lower s2.
Proof.
  split.
  - induction 1 as [|a b r1 r2 H _ IH]; [reflexivity|].
    apply Ascii.eqb_eq in H. simpl. now rewrite H, IH.
  - revert s2. induction s1 as [|a r1 IH]; intros [|b r2] H; try discriminate H.
    + constructor.
    + simpl in H. injection H as Hh Ht. constructor; [|now apply IH].
      rewrite Hh. apply Ascii.eqb_refl.
Qed.

(** X3. [string_equal_no_case] holds exactly when the two strings have
    the same lower-case image; so it is an equivalence: reflexive,
    symmetric and transitive. *)
Theorem string_equal_no_case_spec :
  (forall s1 s2 : text,
      string_equal_no_case s1 s2 = true <-> map to_lower s1 = map to_lower s2)
  /\ (forall s : text, string_equal_no_case s s = true)
  /\ (forall s1 s2 : text,
         string_equal_no_case s1 s2 = string_equal_no_case s2 s1)
  /\ (forall s1 s2 s3 : text,
         string_equal_no_case s1 s2 = true -> string_equal_no_case s2 s3 = true ->
         string_equal_no_case s1 s3 = true).
Proof.
  assert (forall s1 s2, string_equal_no_case s1 s2 = true
                        <-> map to_lower s1 = map to_lower s2) as Hspec.
  { intros s1 s2. unfold string_equal_no_case.
    destruct (Nat.eqb_spec (length s1) (length s2)) as [Hl | Hl]; cbn [negb].
    - now rewrite std_equal_same_length, Forall2_to_lower.
    - split; [discriminate|]. intros H. apply (f_equal (@length ascii)) in H.
      rewrite !length_map in H. contradiction. }
  split; [exact Hspec|]. split; [|split].
  - intros s. now apply Hspec.
  - intros s1 s2.
    destruct (string_equal_no_case s1 s2) eqn:E1, (string_equal_no_case s2 s1) eqn:E2;
      trivial.
    + apply Hspec in E1. symmetry in E1. apply Hspec in E1. congruence.
    + apply Hspec in E2. symmetry in E2. apply Hspec in E2. congruence.
  - intros s1 s2 s3 H12 H23. apply Hspec in H12, H23. apply Hspec. congruence.
Qed.

Lemma string_equal_no_case_spec_witness :
  string_equal_no_case $"Eth0" $"eTH0" = true
  /\ string_equal_no_case $"eTH0" $"ETH0" = true
  /\ string_equal_no_case $"Eth0" $"ETH0" = true.
Proof.
  assert (string_equal_no_case $"Eth0" $"eTH0" = true) as H12 by reflexivity.
  assert (string_equal_no_case $"eTH0" $"ETH0" = true) as H23 by reflexivity.
  split; [exact H12|]. split; [exact H23|].
  exact (proj2 (proj2 (proj2 string_equal_no_case_spec)) _ _ _ H12 H23).
Defined.

Lemma to_lower_zero (c : ascii) : to_lower c = zero -> c = zero.
Proof.
  destruct c as [[] [] [] [] [] [] [] []]; vm_compute; congruence.
Qed.

(** X4. For a C string [s1], [string_begins_no_case s1 s2] holds exactly
    when [s2] starts with [s1] up to the case of letters; when [s2] is
    shorter the comparison with its terminator fails, so nothing behind
    it is read. *)
Theorem string_begins_no_case_spec (s1 : text) :
  ~ In zero s1 ->
  forall s2 : text,
    string_begins_no_case s1 s2 = true
    <-> exists pre rest, s2 = pre ++ rest /\ map to_lower pre = map to_lower s1.
Proof.
  induction s1 as [|c1 r1 IH]; intros Hz s2.
  - split; [|reflexivity]. intros _. now exists [], s2.
  - assert (c1 <> zero) as Hc1 by (intros ->; apply Hz; now left).
    assert (~ In zero r1) as Hr1 by (intros H; apply Hz; now right).
    cbn [string_begins_no_case].
    destruct (Ascii.eqb_spec c1 zero) as [|_]; [contradiction|].
    destruct s2 as [|c2 r2]; cbn [hd tl].
    + destruct (Ascii.eqb_spec (to_lower c1) (to_lower zero)) as [E | _]; cbn [negb].
      * exfalso. apply Hc1. now apply to_lower_zero.
      * split; [discriminate|]. intros (pre & rest & E & Hm).
        destruct pre; [discriminate Hm | discriminate E].
    + destruct (Ascii.eqb_spec (to_lower c1) (to_lower c2)) as [E | Hne]; cbn [negb].
      * rewrite (IH Hr1 r2). split.
        -- intros (pre & rest & -> & Hm). exists (c2 :: pre), rest.
           split; [reflexivity|]. simpl. now rewrite E, Hm.
        -- intros (pre & rest & E' & Hm). destruct pre as [|x pre]; [discriminate Hm|].
           injection E' as <- ->. injection Hm as _ Hm. now exists pre, rest.
      * split; [discriminate|]. intros (pre & rest & E' & Hm).
        destruct pre as [|x pre]; [discriminate Hm|].
        injection E' as <- ->. injection Hm as Hm _. congruence.
Qed.

Lemma string_begins_no_case_spec_witness :
  ~ In zero $"HTTP://"
  /\ (string_begins_no_case $"HTTP://" $"http://tracker/announce" = true
      <-> exists pre rest,
            $"http://tracker/announce" = pre ++ rest
            /\ map to_lower pre = map to_lower $"HTTP://").
Proof.
  assert (~ In zero $"HTTP://") as Hz
    by (simpl; intros H; repeat (destruct H as [H | H]; [discriminate H|]); exact H).
  split; [exact Hz|].
  exact (string_begins_no_case_spec $"HTTP://" Hz $"http://tracker/announce").
Defined.

Example string_begins_no_case_short :
  string_begins_no_case $"http://" $"HTTP" = false
  /\ string_begins_no_case [] $"x" = true
  /\ string_begins_no_case $"udp" $"UDP://x" = true.
Proof. repeat split; reflexivity. Qed.

Lemma std_equal_prefix (a : text) :
  forall b, (length a <= length b)%nat ->
    (std_equal Ascii.eqb a b = true <-> exists t, b = a ++ t).
Proof.
  induction a as [|x a IH]; intros b Hl.
  - split; [|reflexivity]. intros _. now exists b.
  - destruct b as [|y b]; [simpl in Hl; lia|]. cbn [std_equal hd tl].
    rewrite andb_true_iff, IH by (simpl in Hl; lia). split.
    + intros [E [t ->]]. apply Ascii.eqb_eq in E. subst. now exists t.
    + intros [t E]. injection E as <- ->. split; [apply Ascii.eqb_refl | now exists t].
Qed.

(** X5. [string_ends_with s1 s2] holds exactly when [s2] is a suffix of
    [s1]; a longer [s2] is refused before any byte is compared. *)
Theorem string_ends_with_spec (s1 s2 : text) :
  string_ends_with s1 s2 = true <-> exists pre, s1 = pre ++ s2.
Proof.
  unfold string_ends_with.
  destruct (Nat.leb_spec (length s2) (length s1)) as [Hl | Hl]; cbn [andb].
  - rewrite std_equal_prefix by (rewrite !length_rev; exact Hl). split.
    + intros [t E]. exists (rev t).
      rewrite <- (rev_involutive s1), E, rev_app_distr. now rewrite rev_involutive.
    + intros [pre ->]. exists (rev pre). apply rev_app_distr.
  - split; [discriminate|]. intros [pre ->]. rewrite length_app in Hl. lia.
Qed.

Example string_ends_with_examples :
  string_ends_with $"tracker.i2p" $".i2p" = true
  /\ string_ends_with $"i2p" $".i2p" = false
  /\ string_ends_with $"x" [] = true
  /\ string_ends_with $"a.i2p.org" $".i2p" = false.
Proof. repeat split; reflexivity. Qed.

(** ** [search] *)

Lemma starts_with_test (src target : text) :
  (length src <=? length target)%nat && std_equal Ascii.eqb src target = true
  <-> exists t, target = src ++ t.
Proof.
  destruct (Nat.leb_spec (length src) (length target)) as [Hl | Hl]; cbn [andb].
  - now apply std_equal_prefix.
  - split; [discriminate|]. intros [t ->]. rewrite length_app in Hl. lia.
Qed.

Lemma std_search_spec (src target : text) :
  (std_search src target = None
   /\ forall pre post, target <> pre ++ src ++ post)
  \/ (exists pre post,
         target = pre ++ src ++ post
         /\ std_search src target = Some (length pre)
         /\ forall pre' post', target = pre' ++ src ++ post' ->
                               (length pre <= length pre')%nat).
Proof.
  induction target as [|y r IH].
  - cbn [std_search].
    destruct ((length src <=? length (@nil ascii))%nat && std_equal Ascii.eqb src [])
      eqn:Et.
    + right. apply starts_with_test in Et. destruct Et as [t Et].
      exists [], t. split; [exact Et|]. split; [reflexivity | simpl; lia].
    + left. split; [reflexivity|]. intros pre post E.
      assert (exists t, [] = src ++ t) as Hp.
      { destruct pre; [|discriminate E]. now exists post. }
      apply starts_with_test in Hp. congruence.
  - cbn [std_search].
    destruct ((length src <=? length (y :: r))%nat && std_equal Ascii.eqb src (y :: r))
      eqn:Et.
    + right. apply starts_with_test in Et. destruct Et as [t Et].
      exists [], t. split; [exact Et|]. split; [reflexivity | simpl; lia].
    + assert (forall post, y :: r <> src ++ post) as Hno.
      { intros post E. assert (exists t, y :: r = src ++ t) as Hp by now exists post.
        apply starts_with_test in Hp. congruence. }
      destruct IH as [[En Hnone] | (pre & post & E & Es & Hmin)].
      * left. rewrite En. split; [reflexivity|]. intros pre post E.
        destruct pre as [|x pre]; [now apply (Hno post)|].
        injection E as _ E. now apply (Hnone pre post).
      * right. exists (y :: pre), post. rewrite Es. subst r.
        split; [reflexivity|]. split; [reflexivity|]. intros pre' post' E'.
        destruct pre' as [|x pre']; [exfalso; now apply (Hno post')|].
        injection E' as _ E'. specialize (Hmin pre' post' E').
        simpl. lia.
Qed.

Lemma to_int_small (d : Z) : 0 <= d < INT_MAX -> to_int d = d.
Proof.
  unfold to_int, INT_MAX. intros H.
  rewrite Z.mod_small by lia. lia.
Qed.

Lemma search_asserts_spec (src target : text) :
  search_asserts src target = true
  <-> src <> [] /\ target <> [] /\ (length src <= length target)%nat
      /\ Z.of_nat (length target) < INT_MAX.
Proof.
  unfold search_asserts, INT_MAX.
  rewrite !andb_true_iff, !negb_true_iff, !Nat.eqb_neq, Nat.leb_le, Z.ltb_lt.
  rewrite !length_zero_iff_nil. tauto.
Qed.

(** X6. Where the assertions of [search] hold ([src] and [target] are
    not empty, [target] is at least as long as [src] and shorter than
    [INT_MAX]), [search] returns -1 exactly when [src] occurs nowhere in
    [target]; otherwise it returns, unchanged by the cast to [int], the
    offset of the first occurrence, which leaves room for [src] before
    the end of [target]. *)
Theorem search_spec (src target : text) :
  src <> [] ->
  target <> [] ->
  (length src <= length target)%nat ->
  Z.of_nat (length target) < INT_MAX ->
  (search src target = -1 /\ forall pre post, target <> pre ++ src ++ post)
  \/ (exists pre post,
         target = pre ++ src ++ post
         /\ search src target = Z.of_nat (length pre)
         /\ 0 <= search src target <= Z.of_nat (length target) - Z.of_nat (length src)
         /\ forall pre' post', target = pre' ++ src ++ post' ->
                               (length pre <= length pre')%nat).
Proof.
  intros Hsrc Htarget Hle Hmax. unfold search.
  destruct (std_search_spec src target) as [[En Hnone] | (pre & post & E & Es & Hmin)].
  - left. rewrite En, Nat.eqb_refl. now split.
  - right. exists pre, post. rewrite Es.
    assert (length target = length pre + length src + length post)%nat as El.
    { rewrite E at 1. rewrite !length_app. lia. }
    assert (length src <> 0)%nat as Hs by now rewrite length_zero_iff_nil.
    destruct (Nat.eqb_spec (length pre) (length target)) as [Eq | _]; [lia|].
    rewrite to_int_small by lia.
    repeat split; trivial; lia.
Qed.

Lemma search_spec_witness :
  search_asserts $"sync" $"..sync..sync" = true
  /\ ((search $"sync" $"..sync..sync" = -1
       /\ forall pre post, $"..sync..sync" <> pre ++ $"sync" ++ post)
      \/ (exists pre post,
             $"..sync..sync" = pre ++ $"sync" ++ post
             /\ search $"sync" $"..sync..sync" = Z.of_nat (length pre)
             /\ 0 <= search $"sync" $"..sync..sync"
                 <= Z.of_nat (length $"..sync..sync") - Z.of_nat (length $"sync")
             /\ forall pre' post', $"..sync..sync" = pre' ++ $"sync" ++ post' ->
                                   (length pre <= length pre')%nat)).
Proof.
  split; [reflexivity|].
  apply (search_spec $"sync" $"..sync..sync").
  - discriminate.
  - discriminate.
  - vm_compute. lia.
  - vm_compute. reflexivity.
Defined.

Example search_examples :
  search $"sync" $"..sync..sync" = 2
  /\ search $"sync" $"..syn" = -1
  /\ search $"ab" $"ab" = 0
  /\ search $"aab" $"aaab" = 1.
Proof. repeat split; reflexivity. Qed.

(** In a build without assertions an empty [src] is found at
    [target.begin()], which is [target.end()] when [target] is empty
    too. *)
Example search_outside_asserts :
  search_asserts [] [] = false
  /\ search [] [] = -1
  /\ search [] $"ab" = 0
  /\ search $"ab" [] = -1.
Proof. repeat split; reflexivity. Qed.

(** ** [url_random] *)

Lemma printable_url_safe :
  forallb (fun r => url_safe (char_at printable r)) (seq 0 (sizeof_printable - 1)) = true.
Proof. vm_compute. reflexivity. Qed.

(** X7. As long as [random(n)] returns at most [n], [url_random] fills
    the destination with letters, digits and the marks [-_.!~*()] only:
    it never reads the table's terminator or beyond it, and writes one
    byte for each byte of the destination. *)
Theorem url_random_safe (draws : list nat) :
  Forall (fun r => (r <= sizeof_printable - 2)%nat) draws ->
  length (url_random draws) = length draws
  /\ Forall (fun c => url_safe c = true /\ In c printable /\ c <> zero /\ c <> "'"%char)
       (url_random draws).
Proof.
  intros Hd. unfold url_random. split; [apply length_map|].
  apply Forall_map. eapply Forall_impl; [|exact Hd]. intros r Hr. cbv beta.
  assert (url_safe (char_at printable r) = true) as Hs.
  { pose proof printable_url_safe as H. rewrite forallb_forall in H.
    apply H. apply in_seq. unfold sizeof_printable in *. simpl in *. lia. }
  split; [exact Hs|]. split.
  - apply nth_In. unfold sizeof_printable in Hr. simpl in *. lia.
  - split; intros E; rewrite E in Hs; discriminate Hs.
Qed.

Lemma url_random_safe_witness :
  Forall (fun r => (r <= sizeof_printable - 2)%nat) [0; 69; 35; 62]%nat
  /\ length (url_random [0; 69; 35; 62]%nat) = 4%nat
  /\ Forall (fun c => url_safe c = true /\ In c printable /\ c <> zero /\ c <> "'"%char)
       (url_random [0; 69; 35; 62]%nat).
Proof.
  assert (Forall (fun r => (r <= sizeof_printable - 2)%nat) [0; 69; 35; 62]%nat) as Hd
    by (repeat constructor; vm_compute; discriminate).
  split; [exact Hd|].
  exact (url_random_safe _ Hd).
Defined.

Example url_random_table :
  sizeof_printable = 71%nat /\ url_random [0; 69; 35; 62]%nat = $"0)Z-".
Proof. split; reflexivity. Qed.

(** ** [to_string] and [atoi] *)

Lemma atoi_to_string (n : Z) :
  INT64_MIN <= n <= INT64_MAX -> atoi (to_string n) = n.
Proof.
  intros H. unfold to_string. rewrite (unsigned_abs_spec n H).
  assert (0 <= Z.abs n < 10 ^ Z.of_nat 20) as Hb
    by (unfold INT64_MIN, INT64_MAX in H; simpl; lia).
  destruct (to_string_digits_spec (to_string_capacity - 1) 20 (Z.abs n) []
              ltac:(unfold to_string_capacity; lia) Hb)
    as (ds & E & Hdig & Hval & _ & _).
  rewrite app_nil_r in E. rewrite E.
  destruct (Z.ltb_spec n 0) as [Hneg | Hpos].
  - unfold atoi. rewrite skip_stop by reflexivity. cbn [Ascii.eqb Bool.eqb].
    rewrite atoi_digits_value by assumption. fold (decimal_value ds). lia.
  - rewrite atoi_decimal by assumption. lia.
Qed.

(** X8. Reading back what [to_string] wrote gives the number: for every
    [int] [n], [atoi (to_string n)] is [n], the most negative one
    included. *)
Theorem atoi_to_string_int (n : Z) :
  INT_MIN <= n <= INT_MAX -> atoi (to_string n) = n /\ INT_MIN <= atoi (to_string n) <= INT_MAX.
Proof.
  intros H. rewrite atoi_to_string; [now split|].
  unfold INT_MIN, INT_MAX, INT64_MIN, INT64_MAX in *. lia.
Qed.

Lemma atoi_to_string_int_witness :
  INT_MIN <= INT_MIN <= INT_MAX
  /\ atoi (to_string INT_MIN) = INT_MIN
  /\ INT_MIN <= atoi (to_string INT_MIN) <= INT_MAX.
Proof.
  assert (INT_MIN <= INT_MIN <= INT_MAX) as H by (unfold INT_MIN, INT_MAX; lia).
  split; [exact H|]. exact (atoi_to_string_int INT_MIN H).
Defined.

(** X9. [to_string] is injective on the 64-bit integers: two numbers
    with the same text are the same number. *)
Theorem to_string_injective (a b : Z) :
  INT64_MIN <= a <= INT64_MAX -> INT64_MIN <= b <= INT64_MAX ->
  to_string a = to_string b -> a = b.
Proof.
  intros Ha Hb E. rewrite <- (atoi_to_string a Ha), <- (atoi_to_string b Hb).
  now rewrite E.
Qed.

Lemma to_string_injective_witness :
  INT64_MIN <= INT64_MIN <= INT64_MAX
  /\ INT64_MIN <= 0 - 2 ^ 63 <= INT64_MAX
  /\ to_string INT64_MIN = to_string (0 - 2 ^ 63)
  /\ INT64_MIN = 0 - 2 ^ 63.
Proof.
  assert (INT64_MIN <= INT64_MIN <= INT64_MAX) as Ha
    by (unfold INT64_MIN, INT64_MAX; lia).
  assert (INT64_MIN <= 0 - 2 ^ 63 <= INT64_MAX) as Hb
    by (unfold INT64_MIN, INT64_MAX; lia).
  assert (to_string INT64_MIN = to_string (0 - 2 ^ 63)) as E by reflexivity.
  split; [exact Ha|]. split; [exact Hb|]. split; [exact E|].
  exact (to_string_injective _ _ Ha Hb E).
Defined.

(** ** [split_string] *)

Lemma sep_scan_first (sep : ascii) (mid a : text) :
  ~ In sep mid ->
  forall pos, sep_scan sep (mid ++ sep :: a) pos = ((pos + length mid)%nat, 1%nat).
Proof.
  induction mid as [|x mid IH]; intros Hm pos; simpl.
  - rewrite Ascii.eqb_refl. f_equal. lia.
  - destruct (Ascii.eqb_spec x sep) as [-> | _]; [exfalso; apply Hm; now left|].
    rewrite IH by (intros H; apply Hm; now right). f_equal. lia.
Qed.

Lemma sep_scan_absent (sep : ascii) (t : text) :
  ~ In sep t ->
  forall pos, sep_scan sep t pos = ((pos + length t)%nat, 0%nat).
Proof.
  induction t as [|x t IH]; intros Ht pos; simpl.
  - f_equal. lia.
  - destruct (Ascii.eqb_spec x sep) as [-> | _]; [exfalso; apply Ht; now left|].
    rewrite IH by (intros H; apply Ht; now right). f_equal. lia.
Qed.

(** The split at the first separator at or behind the position where
    the separator loop starts. *)
Lemma split_string_at (s pre mid a : text) (sep : ascii) :
  s = pre ++ mid ++ sep :: a -> length pre = scan_start s sep -> ~ In sep mid ->
  split_string s sep = (pre ++ mid, a).
Proof.
  intros Es Hp Hm.
  assert (s <> []) as Hne by (subst s; destruct pre, mid; discriminate).
  rewrite (split_string_unfold s sep Hne), <- Hp.
  unfold substr_from, substr. cbn [skipn].
  assert (skipn (length pre) s = mid ++ sep :: a) as ->
    by (rewrite Es, skipn_app, skipn_all, Nat.sub_diag; reflexivity).
  rewrite sep_scan_first by assumption. cbn [fst snd].
  assert (s = (pre ++ mid) ++ sep :: a) as Es' by (now rewrite <- app_assoc).
  replace (length pre + length mid)%nat with (length (pre ++ mid))
    by apply length_app.
  rewrite Es'. now rewrite firstn_app_exact, skipn_app_exact.
Qed.

(** X10. When the separator does not occur in the input, quoted or not,
    [split_string] returns the whole input and an empty remainder. *)
Theorem split_string_no_separator (s : text) (sep : ascii) :
  ~ In sep s -> split_string s sep = (s, []).
Proof.
  intros Hs. destruct s as [|c0 r] eqn:Es; [reflexivity|]. rewrite <- Es in *.
  assert (s <> []) as Hne by (subst; discriminate).
  rewrite (split_string_unfold s sep Hne).
  pose proof (scan_start_bound s sep) as Hb.
  set (p0 := scan_start s sep) in *. unfold substr_from, substr. cbn [skipn].
  rewrite sep_scan_absent.
  - cbn [fst snd]. rewrite length_skipn.
    replace (p0 + (length s - p0) + 0)%nat with (length s) by lia.
    replace (p0 + (length s - p0))%nat with (length s) by lia.
    now rewrite firstn_all, skipn_all.
  - intros Hin. apply Hs. rewrite <- (firstn_skipn p0 s). apply in_or_app. now right.
Qed.

Lemma split_string_no_separator_witness :
  ~ In ";"%char (dquote :: $"a,b")
  /\ split_string (dquote :: $"a,b") ";"%char = (dquote :: $"a,b", []).
Proof.
  assert (~ In ";"%char (dquote :: $"a,b")) as Hs
    by (simpl; intros H; repeat (destruct H as [H | H]; [discriminate H|]); exact H).
  split; [exact Hs|]. exact (split_string_no_separator _ _ Hs).
Defined.

(** X11. A caller that keeps splitting the remainder makes progress:
    for a non-empty input the remainder is strictly shorter than the
    input, and the two slices together never exceed it. *)
Theorem split_string_progress (s : text) (sep : ascii) :
  s <> [] ->
  (length (snd (split_string s sep)) < length s)%nat
  /\ (length (fst (split_string s sep)) + length (snd (split_string s sep))
      <= length s)%nat.
Proof.
  intros Hne. rewrite (split_string_unfold s sep Hne).
  pose proof (scan_start_bound s sep) as Hb.
  set (p0 := scan_start s sep) in *. unfold substr_from, substr. cbn [skipn fst snd].
  assert (0 < length s)%nat as Hl by (destruct s; [congruence | simpl; lia]).
  destruct (sep_scan_spec sep (skipn p0 s) p0)
    as [[_ E] | (a & b & Hs & _ & E)]; rewrite E; cbn [fst snd];
    rewrite length_firstn, !length_skipn.
  - lia.
  - apply (f_equal (@length ascii)) in Hs.
    rewrite length_skipn, length_app in Hs. simpl in Hs. lia.
Qed.

Lemma split_string_progress_witness :
  $"a,b" <> []
  /\ (length (snd (split_string $"a,b" ","%char)) < length $"a,b")%nat
  /\ (length (fst (split_string $"a,b" ","%char))
      + length (snd (split_string $"a,b" ","%char)) <= length $"a,b")%nat.
Proof.
  assert ($"a,b" <> []) as Hne by discriminate.
  split; [exact Hne|]. exact (split_string_progress _ ","%char Hne).
Defined.

(** X12. Without a leading quote (or when the quote is the separator)
    the input is cut at the first separator: [before] holds none, and
    [after] is everything behind it, further separators included. *)
Theorem split_string_first_separator (b a : text) (sep : ascii) :
  ~ In sep b ->
  hd_error (b ++ sep :: a) <> Some dquote \/ sep = dquote ->
  split_string (b ++ sep :: a) sep = (b, a).
Proof.
  intros Hb Hq.
  apply (split_string_at (b ++ sep :: a) [] b a sep); [reflexivity | | exact Hb].
  unfold scan_start. destruct (b ++ sep :: a) as [|c0 r] eqn:E; [reflexivity|].
  destruct Hq as [Hq | ->].
  - destruct (Ascii.eqb_spec c0 dquote) as [-> | _]; [now contradiction Hq | reflexivity].
  - rewrite Ascii.eqb_refl. cbn [negb]. now rewrite andb_false_r.
Qed.

Lemma split_string_first_separator_witness :
  ~ In ","%char $"a b"
  /\ (hd_error ($"a b" ++ ","%char :: $"c,d") <> Some dquote \/ ","%char = dquote)
  /\ split_string ($"a b" ++ ","%char :: $"c,d") ","%char = ($"a b", $"c,d").
Proof.
  assert (~ In ","%char $"a b") as Hb
    by (simpl; intros H; repeat (destruct H as [H | H]; [discriminate H|]); exact H).
  assert (hd_error ($"a b" ++ ","%char :: $"c,d") <> Some dquote \/ ","%char = dquote)
    as Hq by (left; discriminate).
  split; [exact Hb|]. split; [exact Hq|].
  exact (split_string_first_separator _ _ _ Hb Hq).
Defined.

Lemma quote_scan_closing (q t : text) :
  ~ In dquote q ->
  forall pos, quote_scan (q ++ dquote :: t) pos = (pos + length q + 1)%nat.
Proof.
  induction q as [|x q IH]; intros Hq pos; cbn [app quote_scan length].
  - rewrite Ascii.eqb_refl. lia.
  - destruct (Ascii.eqb_spec x dquote) as [-> | _]; [exfalso; apply Hq; now left|].
    rewrite IH by (intros H; apply Hq; now right). lia.
Qed.

(** X13. A quoted prefix protects the separators inside it: when the
    input starts with a quoted text, it is cut at the first separator
    behind the closing quote, and [before] keeps the quotes and what
    they hold. *)
Theorem split_string_quoted_prefix (q b a : text) (sep : ascii) :
  sep <> dquote -> ~ In dquote q -> ~ In sep b ->
  split_string (dquote :: q ++ dquote :: b ++ sep :: a) sep
  = (dquote :: q ++ dquote :: b, a).
Proof.
  intros Hsep Hq Hb.
  replace (dquote :: q ++ dquote :: b) with ((dquote :: q) ++ dquote :: b) by reflexivity.
  apply split_string_at.
  - reflexivity.
  - unfold scan_start, substr_from. rewrite Ascii.eqb_refl.
    destruct (Ascii.eqb_spec sep dquote) as [|_]; [contradiction|].
    cbn [negb andb skipn]. rewrite quote_scan_closing by assumption.
    simpl. lia.
  - intros [H | H]; [congruence | contradiction].
Qed.

Lemma split_string_quoted_prefix_witness :
  ","%char <> dquote /\ ~ In dquote $"a,b" /\ ~ In ","%char $"x"
  /\ split_string (dquote :: $"a,b" ++ dquote :: $"x" ++ ","%char :: $"c,d") ","%char
     = (dquote :: $"a,b" ++ dquote :: $"x", $"c,d").
Proof.
  assert (","%char <> dquote) as Hsep by discriminate.
  assert (~ In dquote $"a,b") as Hq
    by (simpl; intros H; repeat (destruct H as [H | H]; [discriminate H|]); exact H).
  assert (~ In ","%char $"x") as Hb
    by (simpl; intros H; repeat (destruct H as [H | H]; [discriminate H|]); exact H).
  split; [exact Hsep|]. split; [exact Hq|]. split; [exact Hb|].
  exact (split_string_quoted_prefix _ _ _ _ Hsep Hq Hb).
Defined.

(** ** [parse_listen_interfaces] *)

Lemma push_valid_app (out : list listen_interface_t) (i : listen_interface_t) :
  push_valid out i = out ++ push_valid [] i.
Proof. unfold push_valid. destruct (0 <=? port i); [reflexivity | now rewrite app_nil_r]. Qed.

Lemma parse_listen_interfaces_loop_app (n : nat) :
  forall (s : text) (out : list listen_interface_t),
    (length s <= n)%nat ->
    parse_listen_interfaces_loop s out = out ++ parse_listen_interfaces s.
Proof.
  unfold parse_listen_interfaces.
  induction n as [|n IH]; intros s out Hn;
    rewrite (parse_listen_interfaces_loop_eq s out), (parse_listen_interfaces_loop_eq s []).
  - destruct s; [now rewrite app_nil_r | simpl in Hn; lia].
  - destruct s as [|c r]; [now rewrite app_nil_r|].
    destruct (parse_entry (c :: r)) as [[i rest]|] eqn:E; [|now rewrite app_nil_r].
    pose proof (parse_entry_consumes _ _ _ E) as Hlt.
    rewrite (IH rest (push_valid out i)), (IH rest (push_valid [] i)) by lia.
    now rewrite (push_valid_app out), app_assoc.
Qed.

(** X14. The loop only ever appends: what was pushed before is neither
    dropped nor altered.  Hence the records of a text are the record of
    its first entry, if its port is valid, followed by the records of
    the text behind that entry's comma; and nothing when the first
    entry makes the loop return. *)
Theorem parse_listen_interfaces_unfolds :
  (forall (s : text) (out : list listen_interface_t),
      parse_listen_interfaces_loop s out = out ++ parse_listen_interfaces s)
  /\ (forall s : text,
         parse_listen_interfaces s
         = match parse_entry s with
           | Some (i, rest) => push_valid [] i ++ parse_listen_interfaces rest
           | None => []
           end).
Proof.
  assert (forall s out,
             parse_listen_interfaces_loop s out = out ++ parse_listen_interfaces s) as H.
  { intros s out. now apply (parse_listen_interfaces_loop_app (length s)). }
  split; [exact H|]. intros s. unfold parse_listen_interfaces at 1.
  rewrite parse_listen_interfaces_loop_eq. destruct s as [|c r]; [reflexivity|].
  destruct (parse_entry (c :: r)) as [[i rest]|]; [apply H | reflexivity].
Qed.

(** X15. A device text that was read outside brackets holds no white
    space and no colon; one that was read inside brackets holds no
    ["]"]. *)
Theorem parsed_device_bytes (inp : text) (i : listen_interface_t) :
  In i (parse_listen_interfaces inp) ->
  exists e rest,
    remainder_of inp e /\ parse_entry e = Some (i, rest)
    /\ ((hd_error (skip is_space e) = Some "["%char /\ ~ In "]"%char (device i))
        \/ (hd_error (skip is_space e) <> Some "["%char
            /\ Forall (fun c => is_space c = false /\ c <> ":"%char) (device i))).
Proof.
  intros Hin. unfold parse_listen_interfaces in Hin.
  apply (parse_listen_interfaces_loop_In (length inp)) in Hin; [|lia].
  destruct Hin as [[] | (e & rest & He & Hp & _)].
  exists e, rest. split; [exact He|]. split; [exact Hp|].
  destruct (parse_entry_some_colon _ _ _ Hp) as [s3 Hc].
  rewrite (parse_entry_colon _ _ Hc) in Hp. injection Hp as <- _. cbn [device].
  unfold colon_cursor in Hc.
  destruct (skip is_space e) as [|c r] eqn:Es; [discriminate Hc|].
  destruct (Ascii.eqb_spec c "["%char) as [-> | Hne].
  - left. split; [reflexivity|]. rewrite device_token_bracket. cbn [fst].
    apply is_not_Forall. apply scan_spec.
  - right. split; [simpl; congruence|].
    rewrite device_token_plain by assumption.
    destruct (scan_spec (fun c => negb (is_space c) && is_not ":"%char c) (c :: r))
      as (_ & Ha & _).
    eapply Forall_impl; [|exact Ha]. cbv beta. intros a Hpa.
    apply andb_true_iff in Hpa. destruct Hpa as [H1 H2].
    apply negb_true_iff in H1. split; [exact H1|].
    unfold is_not in H2. intros ->. discriminate H2.
Qed.

Lemma parsed_device_bytes_witness :
  In (mk_listen_interface $"fe80::1 " 1 false) (parse_listen_interfaces $"a:2,[fe80::1 ]:1")
  /\ exists e rest,
       remainder_of $"a:2,[fe80::1 ]:1" e
       /\ parse_entry e = Some (mk_listen_interface $"fe80::1 " 1 false, rest)
       /\ ((hd_error (skip is_space e) = Some "["%char /\ ~ In "]"%char $"fe80::1 ")
           \/ (hd_error (skip is_space e) <> Some "["%char
               /\ Forall (fun c => is_space c = false /\ c <> ":"%char) $"fe80::1 ")).
Proof.
  assert (In (mk_listen_interface $"fe80::1 " 1 false)
            (parse_listen_interfaces $"a:2,[fe80::1 ]:1")) as Hin
    by (right; left; reflexivity).
  split; [exact Hin|]. exact (parsed_device_bytes _ _ Hin).
Defined.

(** *** Texts of the grammar *)

Lemma skip_spaces_app (w r : text) :
  spaces w -> skip is_space (w ++ r) = skip is_space r.
Proof.
  induction 1 as [|c w Hc _ IH]; [reflexivity|].
  cbn [app]. now rewrite skip_cons, Hc.
Qed.

Lemma after_first_app_absent (c : ascii) (X T : text) :
  ~ In c X -> after_first c (X ++ T) = after_first c T.
Proof.
  induction X as [|x X IH]; intros H; [reflexivity|]. cbn [app after_first].
  destruct (Ascii.eqb_spec x c) as [-> | _]; [exfalso; apply H; now left|].
  apply IH. intros Hin. apply H. now right.
Qed.

Lemma spaces_no_byte (w : text) (c : ascii) :
  spaces w -> is_space c = false -> ~ In c w.
Proof.
  intros Hw Hc Hin. unfold spaces in Hw. rewrite Forall_forall in Hw.
  specialize (Hw c Hin). congruence.
Qed.

Lemma space_not_digit (c : ascii) : is_space c = true -> is_digit c = false.
Proof.
  intros Hs. destruct (is_digit c) eqn:Hd; [|reflexivity].
  apply digit_not_space in Hd. congruence.
Qed.

(** What follows the port digits of a well laid entry. *)
Lemma port_tail_facts (b : bool) (w4 tr T : text) :
  spaces w4 -> ~ In ","%char tr -> (b = false -> trash_head_ok tr) ->
  T = [] \/ hd_error T = Some ","%char ->
  stops port_byte ((w4 ++ (if b then $"s" else []) ++ tr) ++ T)
  /\ fst (accept "s"%char
            (skip is_space ((w4 ++ (if b then $"s" else []) ++ tr) ++ T))) = b
  /\ after_first ","%char ((w4 ++ (if b then $"s" else []) ++ tr) ++ T)
     = after_first ","%char T.
Proof.
  intros Hw Htr Hhead HT.
  assert (stops is_space ((if b then $"s" else []) ++ tr ++ T)
          /\ stops port_byte ((if b then $"s" else []) ++ tr ++ T)
          /\ fst (accept "s"%char ((if b then $"s" else []) ++ tr ++ T)) = b)
    as (Hs1 & Hs2 & Hs3).
  { destruct b; [repeat split; reflexivity|]. specialize (Hhead eq_refl).
    cbn [app]. destruct tr as [|c tr].
    - destruct HT as [-> | HT]; [repeat split; reflexivity|].
      destruct T as [|c T]; [discriminate HT|]. injection HT as ->.
      repeat split; reflexivity.
    - destruct Hhead as (H1 & H2 & H3). cbn [app stops accept].
      split; [exact H1|]. split; [unfold port_byte; now rewrite H2|].
      destruct (Ascii.eqb_spec c "s"%char); [contradiction | reflexivity]. }
  split; [|split].
  - rewrite <- !app_assoc. destruct w4 as [|c w4]; [exact Hs2|].
    cbn [app stops]. unfold port_byte.
    now rewrite (space_not_digit c (Forall_inv Hw)).
  - rewrite <- !app_assoc. now rewrite skip_app_stop.
  - rewrite after_first_app_absent; [reflexivity|].
    intros Hin. apply in_app_or in Hin. destruct Hin as [Hin | Hin].
    + now apply (spaces_no_byte w4 ","%char Hw).
    + apply in_app_or in Hin. destruct Hin as [Hin | Hin]; [|contradiction].
      destruct b; [|contradiction]. destruct Hin as [Hin | []]. discriminate Hin.
Qed.

(** The device token of a well laid entry, and the cursor at the colon. *)
Lemma device_token_laid_out (d : text) (br : bool) (btw R : text) :
  (if br
   then ~ In "]"%char d /\ ~ In ":"%char btw
   else Forall (fun c => is_space c = false /\ c <> ":"%char) d
        /\ hd_error d <> Some "["%char
        /\ spaces btw /\ (d = [] -> btw = [])) ->
  skip is_space ((if br then $"[" ++ d ++ $"]" else d) ++ btw ++ ":"%char :: R)
  = (if br then $"[" ++ d ++ $"]" else d) ++ btw ++ ":"%char :: R
  /\ fst (device_token ((if br then $"[" ++ d ++ $"]" else d) ++ btw ++ ":"%char :: R))
     = d
  /\ skip is_space
       (snd (device_token ((if br then $"[" ++ d ++ $"]" else d) ++ btw ++ ":"%char :: R)))
     = ":"%char :: R.
Proof.
  destruct br.
  - intros [Hd Hb]. cbn [app list_ascii_of_string]. rewrite <- !app_assoc. cbn [app].
    split; [now apply skip_stop|].
    rewrite device_token_bracket.
    rewrite scan_app_stop by (try apply is_not_Forall; trivial; reflexivity).
    cbn [fst snd]. split; [reflexivity|].
    change ("]"%char :: btw ++ ":"%char :: R) with (("]"%char :: btw) ++ ":"%char :: R).
    rewrite skip_app_stop; [now apply skip_stop | | reflexivity].
    apply is_not_Forall. intros [H | H]; [discriminate | contradiction].
  - intros (Hd & Hhd & Hb & He).
    assert (stops is_space (d ++ btw ++ ":"%char :: R)) as Hst.
    { destruct d as [|c d]; [rewrite (He eq_refl); reflexivity|].
      exact (proj1 (Forall_inv Hd)). }
    assert (skip is_space (d ++ btw ++ ":"%char :: R) = d ++ btw ++ ":"%char :: R) as Hsk.
    { destruct (d ++ btw ++ ":"%char :: R) as [|c r]; [reflexivity|]. now apply skip_stop. }
    split; [exact Hsk|].
    assert (device_token (d ++ btw ++ ":"%char :: R)
            = scan (fun c => negb (is_space c) && is_not ":"%char c)
                (d ++ btw ++ ":"%char :: R)) as ->.
    { destruct d as [|c d].
      - rewrite (He eq_refl). reflexivity.
      - cbn [app]. apply device_token_plain. simpl in Hhd. congruence. }
    rewrite scan_app_stop.
    + cbn [fst snd]. split; [reflexivity|].
      rewrite skip_spaces_app by assumption. now apply skip_stop.
    + eapply Forall_impl; [|exact Hd]. cbv beta. intros c [H1 H2].
      rewrite H1. unfold is_not. now destruct (Ascii.eqb_spec c ":"%char).
    + destruct btw as [|c btw]; [reflexivity|].
      cbn [app stops]. now rewrite (Forall_inv Hb).
Qed.

(** One turn of the loop on a well laid entry, followed by the end of
    the text or by the comma of the next entry. *)
Lemma parse_entry_laid_out (i : listen_interface_t) (L : entry_layout) (T : text) :
  well_laid i L -> T = [] \/ hd_error T = Some ","%char ->
  parse_entry (entry_source i L ++ T) = Some (i, after_first ","%char T).
Proof.
  destruct i as [d p b], L as [w1 br btw w3 w4 tr].
  unfold well_laid, entry_source. cbn [device port ssl lead bracketed between
                                        before_port after_port trash].
  intros (Hw1 & Hw3 & Hw4 & Htr & Hhead & Hp & Hdev) HT.
  destruct (to_string_port p Hp) as (Hdig & Hne & Hport).
  set (ds := to_string p) in *.
  set (X := w4 ++ (if b then $"s" else []) ++ tr).
  set (D := if br then $"[" ++ d ++ $"]" else d).
  destruct (port_tail_facts b w4 tr T Hw4 Htr Hhead HT) as (HX1 & HX2 & HX3).
  fold X in HX1, HX2, HX3.
  set (R := w3 ++ ds ++ X ++ T).
  assert ((w1 ++ D ++ btw ++ $":" ++ w3 ++ ds ++ X) ++ T
          = w1 ++ D ++ btw ++ ":"%char :: R) as ->.
  { unfold R. repeat (rewrite <- ?app_assoc; cbn [app list_ascii_of_string]).
    reflexivity. }
  destruct (device_token_laid_out d br btw R Hdev) as (Hsk & Hdt & Hcur).
  fold D in Hsk, Hdt, Hcur.
  assert (skip is_space (w1 ++ D ++ btw ++ ":"%char :: R) = D ++ btw ++ ":"%char :: R)
    as Hsk' by (now rewrite skip_spaces_app).
  assert (colon_cursor (w1 ++ D ++ btw ++ ":"%char :: R) = ":"%char :: R) as Hc.
  { unfold colon_cursor. now rewrite Hsk'. }
  rewrite (parse_entry_colon _ _ Hc), Hsk', Hdt.
  assert (skip is_space R = ds ++ X ++ T) as HR.
  { unfold R. rewrite skip_spaces_app by assumption.
    destruct ds as [|c ds']; [congruence|].
    apply skip_stop, digit_not_space. exact (Forall_inv Hdig). }
  assert (scan port_byte (ds ++ X ++ T) = (ds, X ++ T)) as Hscan.
  { apply scan_app_stop; [|exact HX1].
    eapply Forall_impl; [|exact Hdig]. intros c. apply digit_port_byte. }
  rewrite HR, Hscan. cbn [fst snd].
  now rewrite Hport, HX2, HX3.
Qed.

Lemma parse_laid_out_entries (rest : list (listen_interface_t * entry_layout)) :
  forall (x : listen_interface_t * entry_layout) (out : list listen_interface_t),
    Forall (fun il => well_laid (fst il) (snd il)) (x :: rest) ->
    parse_listen_interfaces_loop
      (entry_source (fst x) (snd x)
       ++ concat (map (fun t => ","%char :: t)
                    (map (fun il => entry_source (fst il) (snd il)) rest)))
      out
    = out ++ map fst (x :: rest).
Proof.
  induction rest as [|y ys IH]; intros x out Hall;
    inversion Hall as [|? ? Hx Hrest]; subst.
  - cbn [map concat].
    rewrite (parse_listen_interfaces_loop_step _ out (fst x) (after_first ","%char []))
      by (apply parse_entry_laid_out; auto).
    unfold push_valid. destruct Hx as (_ & _ & _ & _ & _ & Hp & _).
    destruct (Z.leb_spec 0 (port (fst x))); [|lia].
    now rewrite parse_listen_interfaces_loop_eq.
  - cbn [map concat].
    rewrite (parse_listen_interfaces_loop_step _ out (fst x)
               (after_first ","%char
                  (","%char :: entry_source (fst y) (snd y)
                   ++ concat (map (fun t => ","%char :: t)
                                (map (fun il => entry_source (fst il) (snd il)) ys)))))
      by (apply parse_entry_laid_out; auto).
    unfold push_valid. destruct Hx as (_ & _ & _ & _ & _ & Hp & _).
    destruct (Z.leb_spec 0 (port (fst x))); [|lia].
    cbn [after_first Ascii.eqb Bool.eqb]. rewrite IH by assumption.
    now rewrite <- app_assoc.
Qed.

(** X16. Every text of the listen-interface grammar parses to the
    records it denotes: entries separated by commas, each with optional
    white space before the device, around the colon and after the port,
    the device either plain (no white space, no colon, not starting
    with a bracket) or in brackets (anything but the closing bracket,
    colons included, and any bytes but a colon between the bracket and
    the colon), a port in [0, 65535] without leading zeros, the SSL
    mark, and ignored bytes up to the next comma. *)
Theorem parse_listen_interfaces_grammar
  (items : list (listen_interface_t * entry_layout)) :
  Forall (fun il => well_laid (fst il) (snd il)) items ->
  parse_listen_interfaces
    (join_entries (map (fun il => entry_source (fst il) (snd il)) items))
  = map fst items.
Proof.
  intros Hall. destruct items as [|x rest]; [reflexivity|].
  cbn [map join_entries]. unfold parse_listen_interfaces.
  now rewrite parse_laid_out_entries.
Qed.

Lemma parse_listen_interfaces_grammar_witness :
  Forall (fun il => well_laid (fst il) (snd il))
    [(mk_listen_interface $"fe80::1" 6881 true,
      mk_entry_layout $" " true $"%eth0 " $" " $" " $" junk");
     (mk_listen_interface $"eth0" 80 false,
      mk_entry_layout $"  " false $" " [] [] $"/tcp");
     (mk_listen_interface [] 0 false, mk_entry_layout [] false [] [] [] [])]
  /\ join_entries
       (map (fun il => entry_source (fst il) (snd il))
          [(mk_listen_interface $"fe80::1" 6881 true,
            mk_entry_layout $" " true $"%eth0 " $" " $" " $" junk");
           (mk_listen_interface $"eth0" 80 false,
            mk_entry_layout $"  " false $" " [] [] $"/tcp");
           (mk_listen_interface [] 0 false, mk_entry_layout [] false [] [] [] [])])
     = $" [fe80::1]%eth0 : 6881 s junk,  eth0 :80/tcp,:0"
  /\ parse_listen_interfaces
       (join_entries
          (map (fun il => entry_source (fst il) (snd il))
             [(mk_listen_interface $"fe80::1" 6881 true,
               mk_entry_layout $" " true $"%eth0 " $" " $" " $" junk");
              (mk_listen_interface $"eth0" 80 false,
               mk_entry_layout $"  " false $" " [] [] $"/tcp");
              (mk_listen_interface [] 0 false, mk_entry_layout [] false [] [] [] [])]))
     = [mk_listen_interface $"fe80::1" 6881 true; mk_listen_interface $"eth0" 80 false;
        mk_listen_interface [] 0 false].
Proof.
  assert (forall t : text, t = $" junk" \/ t = $"%eth0 " \/ t = $"/tcp" \/ t = [] ->
                           ~ In ","%char t /\ ~ In ":"%char t) as Hno.
  { intros t [-> | [-> | [-> | ->]]]; split; simpl; intros H;
      repeat (destruct H as [H | H]; [discriminate H|]); exact H. }
  assert (Forall (fun il => well_laid (fst il) (snd il))
            [(mk_listen_interface $"fe80::1" 6881 true,
              mk_entry_layout $" " true $"%eth0 " $" " $" " $" junk");
             (mk_listen_interface $"eth0" 80 false,
              mk_entry_layout $"  " false $" " [] [] $"/tcp");
             (mk_listen_interface [] 0 false, mk_entry_layout [] false [] [] [] [])])
    as Hall.
  { repeat constructor; cbn; try lia; try discriminate; try congruence;
      try (apply Hno; tauto);
      try (intros H; repeat (destruct H as [H | H]; [discriminate H|]); exact H). }
  split; [exact Hall|]. split; [reflexivity|].
  exact (parse_listen_interfaces_grammar _ Hall).
Defined.

(** X17. Printing and parsing again also gives back records with IPv6
    literals: it suffices that the ports lie in [0, 65535], that a
    device the address check puts in brackets holds no ["]"], and that
    any other device holds no white space and no colon and does not
    start with ["["]. *)
Theorem print_parse_round_trip_bracketed
  (is_address_v6 : text -> bool) (xs : list listen_interface_t) :
  Forall (fun i =>
            0 <= port i <= 65535
            /\ if is_address_v6 (device i)
               then ~ In "]"%char (device i)
               else Forall (fun c => is_space c = false /\ c <> ":"%char) (device i)
                    /\ hd_error (device i) <> Some "["%char) xs ->
  parse_listen_interfaces (print_listen_interfaces is_address_v6 xs) = xs.
Proof.
  intros Hall. destruct xs as [|x xs]; [reflexivity|].
  rewrite print_listen_interfaces_cons. unfold parse_listen_interfaces.
  set (lay := fun i : listen_interface_t =>
                (i, mk_entry_layout [] (is_address_v6 (device i)) [] [] [] [])).
  assert (forall i, entry_text is_address_v6 i = entry_source (fst (lay i)) (snd (lay i)))
    as Hsrc.
  { intros i. unfold entry_text, entry_source, lay.
    cbn [fst snd lead bracketed between before_port after_port trash app].
    now rewrite !app_nil_r. }
  assert (entries_text is_address_v6 xs
          = concat (map (fun t => ","%char :: t)
                      (map (fun il => entry_source (fst il) (snd il)) (map lay xs))))
    as ->.
  { unfold entries_text. rewrite !map_map. f_equal. apply map_ext.
    intros i. now rewrite Hsrc. }
  rewrite Hsrc.
  rewrite (parse_laid_out_entries (map lay xs) (lay x) []).
  - cbn [app map fst]. f_equal. rewrite map_map. unfold lay. cbn [fst]. apply map_id.
  - change (lay x :: map lay xs) with (map lay (x :: xs)).
    apply Forall_map. eapply Forall_impl; [|exact Hall]. cbv beta.
    intros i [Hp Hd]. unfold well_laid, lay, spaces.
    cbn [fst snd lead bracketed between before_port after_port trash trash_head_ok].
    split; [constructor|]. split; [constructor|]. split; [constructor|].
    split; [intros []|]. split; [intros _; exact I|]. split; [exact Hp|].
    destruct (is_address_v6 (device i)).
    + split; [exact Hd | intros []].
    + destruct Hd as [H1 H2]. split; [exact H1|]. split; [exact H2|].
      split; [constructor | reflexivity].
Qed.

Lemma print_parse_round_trip_bracketed_witness :
  Forall (fun i =>
            0 <= port i <= 65535
            /\ if existsb (Ascii.eqb ":"%char) (device i)
               then ~ In "]"%char (device i)
               else Forall (fun c => is_space c = false /\ c <> ":"%char) (device i)
                    /\ hd_error (device i) <> Some "["%char)
    [mk_listen_interface $"fe80::1" 6881 true; mk_listen_interface $"eth0" 80 false]
  /\ print_listen_interfaces (existsb (Ascii.eqb ":"%char))
       [mk_listen_interface $"fe80::1" 6881 true; mk_listen_interface $"eth0" 80 false]
     = $"[fe80::1]:6881s,eth0:80"
  /\ parse_listen_interfaces
       (print_listen_interfaces (existsb (Ascii.eqb ":"%char))
          [mk_listen_interface $"fe80::1" 6881 true; mk_listen_interface $"eth0" 80 false])
     = [mk_listen_interface $"fe80::1" 6881 true; mk_listen_interface $"eth0" 80 false].
Proof.
  assert (Forall (fun i =>
            0 <= port i <= 65535
            /\ if existsb (Ascii.eqb ":"%char) (device i)
               then ~ In "]"%char (device i)
               else Forall (fun c => is_space c = false /\ c <> ":"%char) (device i)
                    /\ hd_error (device i) <> Some "["%char)
            [mk_listen_interface $"fe80::1" 6881 true; mk_listen_interface $"eth0" 80 false])
    as Hall.
  { constructor; [|constructor; [|constructor]]; cbn; (split; [lia|]).
    - intros H; repeat (destruct H as [H | H]; [discriminate H|]); exact H.
    - split; [|discriminate]. repeat constructor; discriminate. }
  split; [exact Hall|]. split; [reflexivity|].
  exact (print_parse_round_trip_bracketed _ _ Hall).
Defined.

(** ** [print_listen_interfaces] *)

(** X18. The printed form of a list is empty only for the empty list,
    and the printed form of two non-empty lists put together is their
    printed forms with one comma between them. *)
Theorem print_listen_interfaces_app (is_address_v6 : text -> bool) :
  (forall xs : list listen_interface_t,
      print_listen_interfaces is_address_v6 xs = [] <-> xs = [])
  /\ (forall xs ys : list listen_interface_t,
         xs <> [] -> ys <> [] ->
         print_listen_interfaces is_address_v6 (xs ++ ys)
         = print_listen_interfaces is_address_v6 xs
           ++ ","%char :: print_listen_interfaces is_address_v6 ys).
Proof.
  assert (forall xs, xs <> [] -> print_listen_interfaces is_address_v6 xs <> []) as Hne.
  { intros [|x xs] H; [congruence|]. rewrite print_listen_interfaces_cons.
    pose proof (entry_text_nonempty is_address_v6 x).
    destruct (entry_text is_address_v6 x); [congruence | discriminate]. }
  split.
  - intros xs. split; [|intros ->; reflexivity].
    intros E. destruct xs as [|x xs]; [reflexivity|].
    exfalso. apply (Hne (x :: xs)); [discriminate | exact E].
  - intros xs ys Hx Hy. unfold print_listen_interfaces at 1.
    rewrite fold_left_app. fold (print_listen_interfaces is_address_v6 xs).
    rewrite print_listen_interfaces_from by now apply Hne.
    destruct ys as [|y ys]; [congruence|].
    rewrite print_listen_interfaces_cons. reflexivity.
Qed.

Lemma print_listen_interfaces_app_witness :
  [mk_listen_interface $"a" 1 false] <> []
  /\ [mk_listen_interface $"::1" 2 true; mk_listen_interface $"c" 3 false] <> []
  /\ print_listen_interfaces (existsb (Ascii.eqb ":"%char))
       ([mk_listen_interface $"a" 1 false]
        ++ [mk_listen_interface $"::1" 2 true; mk_listen_interface $"c" 3 false])
     = print_listen_interfaces (existsb (Ascii.eqb ":"%char))
         [mk_listen_interface $"a" 1 false]
       ++ ","%char
          :: print_listen_interfaces (existsb (Ascii.eqb ":"%char))
               [mk_listen_interface $"::1" 2 true; mk_listen_interface $"c" 3 false].
Proof.
  assert ([mk_listen_interface $"a" 1 false] <> []) as Hx by discriminate.
  assert ([mk_listen_interface $"::1" 2 true; mk_listen_interface $"c" 3 false] <> [])
    as Hy by discriminate.
  split; [exact Hx|]. split; [exact Hy|].
  exact (proj2 (print_listen_interfaces_app (existsb (Ascii.eqb ":"%char))) _ _ Hx Hy).
Defined.

(** ** [parse_comma_separated_string] *)

Lemma fields_no_comma (s : text) : Forall (fun f => ~ In ","%char f) (fields s).
Proof.
  induction s as [|c r IH]; cbn [fields]; [repeat constructor; intros []|].
  destruct (Ascii.eqb_spec c ","%char) as [-> | Hc].
  - constructor; [intros [] | exact IH].
  - destruct (fields r) as [|f fs]; [repeat constructor; intros [H | []]; congruence|].
    inversion IH as [|? ? Hf Hfs]; subst. constructor; [|exact Hfs].
    intros [H | H]; [congruence | contradiction].
Qed.

Lemma In_removelast {A : Type} (l : list A) (x : A) : In x (removelast l) -> In x l.
Proof.
  induction l as [|a l IH]; [intros []|]. cbn [removelast].
  destruct l as [|b l]; [intros []|].
  intros [H | H]; [now left | right; now apply IH].
Qed.

Lemma In_emitted_fields (s f : text) : In f (emitted_fields s) -> In f (fields s).
Proof.
  unfold emitted_fields. destruct (last (fields s) []); [apply In_removelast | trivial].
Qed.

Lemma In_skip (p : ascii -> bool) (s : text) (x : ascii) : In x (skip p s) -> In x s.
Proof.
  intros H. destruct (remainder_skip p s) as [pre E]. rewrite E.
  apply in_or_app. now right.
Qed.

Lemma In_trim (f : text) (x : ascii) : In x (trim f) -> In x f.
Proof.
  unfold trim, trim_right. intros H. apply in_rev in H.
  apply In_skip in H. apply in_rev in H. now apply In_skip in H.
Qed.

Lemma stops_skip (p : ascii -> bool) (s : text) : stops p (skip p s).
Proof. apply scan_spec. Qed.

Lemma skip_stops (p : ascii -> bool) (s : text) : stops p s -> skip p s = s.
Proof. destruct s as [|c r]; [reflexivity|]. intros H. now apply skip_stop. Qed.

(** Trimming on the right removes a run of white space at the end. *)
Lemma trim_right_prefix (g : text) : exists w, g = trim_right g ++ w /\ spaces w.
Proof.
  unfold trim_right, skip.
  destruct (scan_spec is_space (rev g)) as (E & Ha & _).
  exists (rev (fst (scan is_space (rev g)))). split.
  - rewrite <- rev_app_distr, <- E. symmetry. apply rev_involutive.
  - unfold spaces. apply Forall_rev. exact Ha.
Qed.

Lemma trim_trimmed (f : text) :
  stops is_space (trim f) /\ stops is_space (rev (trim f)).
Proof.
  unfold trim. split.
  - pose proof (stops_skip is_space f) as Hs.
    destruct (trim_right_prefix (skip is_space f)) as (w & E & _).
    destruct (trim_right (skip is_space f)) as [|c t]; [exact I|].
    rewrite E in Hs. exact Hs.
  - unfold trim_right. rewrite rev_involutive. apply stops_skip.
Qed.

(** X19. No element of the result holds a comma, starts with white
    space or ends with white space. *)
Theorem parse_comma_separated_string_trimmed (s : text) :
  Forall (fun f => ~ In ","%char f /\ stops is_space f /\ stops is_space (rev f))
    (parse_comma_separated_string s).
Proof.
  rewrite parse_comma_separated_string_emitted. apply Forall_map.
  apply Forall_forall. intros f Hf. apply In_emitted_fields in Hf.
  pose proof (fields_no_comma s) as Hc. rewrite Forall_forall in Hc.
  split; [|apply trim_trimmed].
  intros Hin. apply In_trim in Hin. exact (Hc f Hf Hin).
Qed.

Lemma fields_join (fs : list text) :
  Forall (fun f => ~ In ","%char f) fs -> fs <> [] -> fields (join_entries fs) = fs.
Proof.
  induction fs as [|f fs IH]; intros Hall Hne; [congruence|].
  inversion Hall as [|? ? Hf Hfs]; subst.
  destruct fs as [|g fs].
  - cbn [join_entries map concat]. rewrite app_nil_r. now apply fields_single.
  - cbn [join_entries map concat app]. rewrite fields_comma by assumption.
    f_equal. apply (IH Hfs). discriminate.
Qed.

Lemma trim_fixed (f : text) :
  stops is_space f -> stops is_space (rev f) -> trim f = f.
Proof.
  intros H1 H2. unfold trim, trim_right.
  now rewrite (skip_stops _ f H1), (skip_stops _ (rev f) H2), rev_involutive.
Qed.

(** X20. Joining with commas and parsing again gives the fields back:
    for fields that hold no comma and neither start nor end with white
    space, the last of them not empty. *)
Theorem parse_comma_separated_string_join (fs : list text) :
  Forall (fun f => ~ In ","%char f /\ stops is_space f /\ stops is_space (rev f)) fs ->
  last fs $"x" <> [] ->
  parse_comma_separated_string (join_entries fs) = fs.
Proof.
  intros Hall Hlast. destruct fs as [|f0 fs0] eqn:Efs; [reflexivity|].
  rewrite <- Efs in *. assert (fs <> []) as Hne by (subst; discriminate).
  rewrite parse_comma_separated_string_emitted.
  assert (fields (join_entries fs) = fs) as Hf.
  { apply fields_join; [|exact Hne].
    eapply Forall_impl; [|exact Hall]. cbv beta. tauto. }
  assert (emitted_fields (join_entries fs) = fs) as ->.
  { unfold emitted_fields. rewrite Hf.
    assert (last fs [] = last fs $"x") as El.
    { clear -Hne. induction fs as [|a l IH]; [congruence|].
      destruct l as [|b l]; [reflexivity|]. apply IH. discriminate. }
    rewrite El. destruct (last fs $"x"); [congruence | reflexivity]. }
  rewrite <- (map_id fs) at 2. apply map_ext_in. intros f Hin.
  rewrite Forall_forall in Hall. destruct (Hall f Hin) as (_ & H1 & H2).
  now apply trim_fixed.
Qed.

Lemma parse_comma_separated_string_join_witness :
  Forall (fun f => ~ In ","%char f /\ stops is_space f /\ stops is_space (rev f))
    [$"a b"; []; $"c"]
  /\ last [$"a b"; []; $"c"] $"x" <> []
  /\ parse_comma_separated_string (join_entries [$"a b"; []; $"c"]) = [$"a b"; []; $"c"].
Proof.
  assert (Forall (fun f => ~ In ","%char f /\ stops is_space f /\ stops is_space (rev f))
            [$"a b"; []; $"c"]) as Hall.
  { repeat constructor;
      try (simpl; intros H; repeat (destruct H as [H | H]; [discriminate H|]); exact H). }
  assert (last [$"a b"; []; $"c"] $"x" <> []) as Hl by discriminate.
  split; [exact Hall|]. split; [exact Hl|].
  exact (parse_comma_separated_string_join _ Hall Hl).
Defined.

Lemma fields_app_comma (a b : text) :
  fields (a ++ ","%char :: b) = fields a ++ fields b.
Proof.
  induction a as [|c r IH]; [reflexivity|]. cbn [app fields].
  rewrite IH. destruct (Ascii.eqb c ","%char); [reflexivity|].
  pose proof (fields_not_nil r). destruct (fields r); [congruence | reflexivity].
Qed.

Lemma last_app_right {A : Type} (l l' : list A) (d : A) :
  l' <> [] -> last (l ++ l') d = last l' d.
Proof.
  intros H. induction l as [|a l IH]; [reflexivity|].
  cbn [app]. destruct (l ++ l') eqn:E; [|exact IH].
  destruct l; [simpl in E; congruence | discriminate E].
Qed.

(** X21. Parsing distributes over a comma: the result for [a], a comma
    and [b] is the result for [a] with the comma, followed by the
    result for [b]. *)
Theorem parse_comma_separated_string_app (a b : text) :
  parse_comma_separated_string (a ++ ","%char :: b)
  = parse_comma_separated_string (a ++ $",") ++ parse_comma_separated_string b.
Proof.
  rewrite !parse_comma_separated_string_emitted, emitted_fields_snoc_comma.
  rewrite <- map_app. f_equal.
  unfold emitted_fields. rewrite fields_app_comma.
  pose proof (fields_not_nil b) as Hb.
  rewrite last_app_right by assumption.
  destruct (last (fields b) []); [now apply removelast_app | reflexivity].
Qed.

(** ** [parse_comma_separated_string_port] *)

(** The text [to_string] writes: an optional sign, then digits. *)
Lemma to_string_shape (p : Z) :
  INT64_MIN <= p <= INT64_MAX ->
  exists ds,
    to_string p = (if p <? 0 then "-"%char :: ds else ds)
    /\ Forall (fun c => is_digit c = true) ds
    /\ decimal_value ds = Z.abs p /\ ds <> [].
Proof.
  intros H. unfold to_string. rewrite (unsigned_abs_spec p H).
  assert (0 <= Z.abs p < 10 ^ Z.of_nat 20) as Hb
    by (unfold INT64_MIN, INT64_MAX in H; simpl; lia).
  destruct (to_string_digits_spec (to_string_capacity - 1) 20 (Z.abs p) []
              ltac:(unfold to_string_capacity; lia) Hb)
    as (ds & E & Hdig & Hval & Hmin & _).
  rewrite app_nil_r in E. exists ds. rewrite E.
  repeat split; trivial. destruct Hmin as [-> | [Hne _]]; [discriminate | exact Hne].
Qed.

Lemma digits_no_byte (ds : text) (c : ascii) :
  Forall (fun x => is_digit x = true) ds -> is_digit c = false -> ~ In c ds.
Proof.
  intros Hd Hc Hin. rewrite Forall_forall in Hd. specialize (Hd c Hin). congruence.
Qed.

Lemma to_string_no_byte (p : Z) (c : ascii) :
  INT64_MIN <= p <= INT64_MAX -> is_digit c = false -> c <> "-"%char ->
  ~ In c (to_string p).
Proof.
  intros H Hc Hm. destruct (to_string_shape p H) as (ds & E & Hdig & _ & _).
  rewrite E. pose proof (digits_no_byte ds c Hdig Hc).
  destruct (p <? 0); [intros [Hin | Hin]; congruence | assumption].
Qed.

Lemma atoi_digits_app (ds w : text) :
  Forall (fun c => is_digit c = true) ds -> stops is_digit w ->
  forall acc, atoi_digits (ds ++ w) acc
              = fold_left (fun a c => a * 10 + digit_val c) ds acc.
Proof.
  intros Hd Hw. induction Hd as [|c ds Hc _ IH]; intros acc; cbn [app].
  - destruct w as [|x w]; [reflexivity|]. simpl in *. now rewrite Hw.
  - simpl. now rewrite Hc, IH.
Qed.

Lemma spaces_stop_digits (w : text) : spaces w -> stops is_digit w.
Proof.
  intros Hw. destruct w as [|c w]; [exact I|].
  simpl. apply space_not_digit. exact (Forall_inv Hw).
Qed.

(** [atoi] on a number written by [to_string], white space around it. *)
Lemma atoi_padded (w3 w4 : text) (p : Z) :
  spaces w3 -> spaces w4 -> INT64_MIN <= p <= INT64_MAX ->
  atoi (w3 ++ to_string p ++ w4) = p.
Proof.
  intros H3 H4 Hp. destruct (to_string_shape p Hp) as (ds & E & Hdig & Hval & Hne).
  unfold atoi. rewrite skip_spaces_app by assumption. rewrite E.
  pose proof (spaces_stop_digits w4 H4) as Hst.
  destruct (Z.ltb_spec p 0) as [Hneg | Hpos].
  - cbn [app]. rewrite skip_stop by reflexivity. cbn [Ascii.eqb Bool.eqb].
    rewrite atoi_digits_app by assumption. fold (decimal_value ds). lia.
  - destruct ds as [|c ds']; [congruence|]. cbn [app].
    pose proof (Forall_inv Hdig) as Hc. cbv beta in Hc.
    rewrite skip_stop by now apply digit_not_space.
    destruct (Ascii.eqb_spec c "-"%char) as [-> | _]; [discriminate Hc|].
    destruct (Ascii.eqb_spec c "+"%char) as [-> | _]; [discriminate Hc|].
    change (c :: ds' ++ w4) with ((c :: ds') ++ w4).
    rewrite atoi_digits_app by assumption. fold (decimal_value (c :: ds')). lia.
Qed.

Lemma rindex_of_absent (c : ascii) (l : text) : ~ In c l -> rindex_of c l = None.
Proof.
  induction l as [|x l IH]; intros H; [reflexivity|]. simpl.
  rewrite IH by (intros Hin; apply H; now right).
  destruct (Ascii.eqb_spec x c) as [-> | _]; [exfalso; apply H; now left | reflexivity].
Qed.

(** The backward loop runs over the white space in front of the colon
    and stops behind the last byte of the name. *)
Lemma trim_back_spaces (P w Q : text) (x : ascii) :
  spaces w -> is_space x = false ->
  forall j, (j <= length w)%nat ->
    trim_back ((P ++ [x]) ++ w ++ Q) 0 (length (P ++ [x]) + j) = length (P ++ [x]).
Proof.
  intros Hw Hx. induction j as [|j IH]; intros Hj.
  - rewrite Nat.add_0_r, length_app, Nat.add_comm. cbn [length Nat.add trim_back].
    rewrite <- (Nat.add_0_r (length P)), <- app_assoc.
    rewrite (char_at_window P [x] (w ++ Q) 0) by (simpl; lia).
    cbn [char_at nth]. unfold char_at. cbn [nth]. now rewrite Hx, andb_false_r.
  - rewrite Nat.add_succ_r. cbn [trim_back].
    rewrite (char_at_window (P ++ [x]) w Q j) by lia.
    assert (is_space (char_at w j) = true) as ->.
    { unfold spaces in Hw. rewrite Forall_forall in Hw. apply Hw.
      apply nth_In. lia. }
    destruct (Nat.ltb_spec 0 (S (length (P ++ [x]) + j))); [|lia].
    cbn [andb]. apply IH. lia.
Qed.

(** The loop body on a field whose name part [P ++ [x]] ends with a
    byte that is not white space, with white space before the colon
    and no colon behind it. *)
Lemma name_port_field_core (P w2 tail : text) (x : ascii) :
  spaces w2 -> is_space x = false -> ~ In ":"%char tail ->
  name_port_field ((P ++ [x]) ++ w2 ++ ":"%char :: tail) 0
    (length ((P ++ [x]) ++ w2 ++ ":"%char :: tail))
  = Some (substr ((P ++ [x]) ++ w2 ++ ":"%char :: tail)
            (if Ascii.eqb (char_at ((P ++ [x]) ++ w2 ++ ":"%char :: tail) 0) "["%char
             then 1 else 0)
            ((if ((if Ascii.eqb (char_at ((P ++ [x]) ++ w2 ++ ":"%char :: tail) 0) "["%char
                   then 1 else 0) <? length (P ++ [x]))%nat
                  && Ascii.eqb x "]"%char
              then length (P ++ [x]) - 1 else length (P ++ [x]))
             - (if Ascii.eqb (char_at ((P ++ [x]) ++ w2 ++ ":"%char :: tail) 0) "["%char
                then 1 else 0)),
          atoi tail).
Proof.
  intros Hw Hx Ht.
  set (D := P ++ [x]). set (F := D ++ w2 ++ ":"%char :: tail).
  assert (0 < length D)%nat as HD by (unfold D; rewrite length_app; simpl; lia).
  unfold name_port_field. rewrite find_last_of_whole.
  assert (rindex_of ":"%char F = Some (length D + length w2)%nat) as ->.
  { unfold F. rewrite app_assoc, rindex_of_app. cbn [rindex_of].
    rewrite (rindex_of_absent _ _ Ht), Ascii.eqb_refl, length_app. f_equal. lia. }
  destruct (Nat.ltb_spec 0 (length D + length w2)) as [_ | Hk]; [|lia].
  assert (substr F (length D + length w2 + 1)
            (length F - (length D + length w2) - 1) = tail) as ->.
  { unfold substr, F. rewrite app_assoc.
    replace (length D + length w2)%nat with (length (D ++ w2)) by apply length_app.
    rewrite skipn_app_exact. apply firstn_all2.
    rewrite !length_app. simpl. lia. }
  assert (trim_back F 0 (length D + length w2) = length D) as ->
    by (unfold F, D; now apply trim_back_spaces).
  assert (char_at F (length D - 1) = x) as ->.
  { unfold F, D. rewrite length_app. cbn [length].
    replace (length P + 1 - 1)%nat with (length P + 0)%nat by lia.
    rewrite <- app_assoc. rewrite (char_at_window P [x] (w2 ++ ":"%char :: tail) 0)
      by (simpl; lia).
    reflexivity. }
  reflexivity.
Qed.

(** The entry read from a well written field. *)
Lemma field_entry_written (e : text * Z) (L : name_port_layout) :
  well_written e L -> field_entry (name_port_source e L) = Some e.
Proof.
  destruct e as [n p], L as [w1 br w2 w3 w4].
  unfold well_written, name_port_source.
  cbn [fst snd np_lead np_bracketed np_before_colon np_before_port np_after_port].
  intros (H1 & H2 & H3 & H4 & Hp & _ & Hn).
  assert (INT64_MIN <= p <= INT64_MAX) as Hp64
    by (unfold INT64_MIN, INT64_MAX; lia).
  set (tail := w3 ++ to_string p ++ w4).
  assert (~ In ":"%char tail) as Htail.
  { unfold tail. intros Hin. apply in_app_or in Hin. destruct Hin as [Hin | Hin].
    - now apply (spaces_no_byte w3 ":"%char H3).
    - apply in_app_or in Hin. destruct Hin as [Hin | Hin].
      + now apply (to_string_no_byte p ":"%char Hp64).
      + now apply (spaces_no_byte w4 ":"%char H4). }
  assert (atoi tail = p) as Hatoi by (now apply atoi_padded).
  assert (exists P x,
             (if br then $"[" ++ n ++ $"]" else n) = P ++ [x]
             /\ is_space x = false
             /\ is_space (hd zero (P ++ [x])) = false
             /\ substr ((P ++ [x]) ++ w2 ++ ":"%char :: tail)
                  (if Ascii.eqb (char_at ((P ++ [x]) ++ w2 ++ ":"%char :: tail) 0) "["%char
                   then 1 else 0)
                  ((if ((if Ascii.eqb
                              (char_at ((P ++ [x]) ++ w2 ++ ":"%char :: tail) 0) "["%char
                         then 1 else 0) <? length (P ++ [x]))%nat
                        && Ascii.eqb x "]"%char
                    then length (P ++ [x]) - 1 else length (P ++ [x]))
                   - (if Ascii.eqb
                           (char_at ((P ++ [x]) ++ w2 ++ ":"%char :: tail) 0) "["%char
                      then 1 else 0))
                = n) as (P & x & ED & Hx & Hhd & Hname).
  { destruct br.
    - exists ("["%char :: n), "]"%char. split; [reflexivity|].
      split; [reflexivity|]. split; [reflexivity|].
      cbn [app char_at nth Ascii.eqb Bool.eqb length].
      rewrite length_app. cbn [length].
      destruct (Nat.ltb_spec 1 (S (length n + 1))); [|lia]. cbn [andb].
      replace (S (length n + 1) - 1 - 1)%nat with (length n) by lia.
      unfold substr. cbn [skipn]. rewrite <- app_assoc. apply firstn_app_exact.
    - destruct (Hn eq_refl) as (Hc & (c & r & En & Hc1 & Hc2) & (r' & y & En' & Hy1 & Hy2)).
      exists r', y. rewrite <- En'. split; [reflexivity|]. split; [exact Hy1|].
      split; [rewrite En; exact Hc1|].
      assert (char_at (n ++ w2 ++ ":"%char :: tail) 0 = c) as ->
        by (rewrite En; reflexivity).
      destruct (Ascii.eqb_spec c "["%char) as [|_]; [contradiction|].
      destruct (Ascii.eqb_spec y "]"%char) as [|_]; [contradiction|].
      rewrite andb_false_r, Nat.sub_0_r. unfold substr. cbn [skipn].
      apply firstn_app_exact. }
  set (F := (P ++ [x]) ++ w2 ++ ":"%char :: tail) in *.
  assert (w1 ++ (if br then $"[" ++ n ++ $"]" else n) ++ w2 ++ $":" ++ tail
          = w1 ++ F ++ []) as ->.
  { unfold F. rewrite ED, app_nil_r.
    repeat (rewrite <- ?app_assoc; cbn [app list_ascii_of_string]). reflexivity. }
  assert (stops is_space F) as HstF.
  { unfold F. destruct (P ++ [x]) as [|c0 r0] eqn:E0; [destruct P; discriminate E0|].
    exact Hhd. }
  unfold field_entry.
  assert (skip_from is_space (w1 ++ F ++ []) 0 = (length w1 + 0)%nat) as ->.
  { unfold skip_from. cbn [skipn Nat.add]. rewrite app_nil_r.
    rewrite scan_app_stop by assumption. cbn [fst]. lia. }
  replace (length (w1 ++ F ++ [])) with (length w1 + length F)%nat
    by (rewrite !length_app; simpl; lia).
  rewrite name_port_field_window by now left.
  unfold F. rewrite name_port_field_core by assumption.
  fold F. now rewrite Hname, Hatoi.
Qed.

Lemma name_port_source_no_comma (e : text * Z) (L : name_port_layout) :
  well_written e L -> ~ In ","%char (name_port_source e L).
Proof.
  destruct e as [n p], L as [w1 br w2 w3 w4].
  unfold well_written, name_port_source.
  cbn [fst snd np_lead np_bracketed np_before_colon np_before_port np_after_port].
  intros (H1 & H2 & H3 & H4 & Hp & Hn & _) Hin.
  assert (INT64_MIN <= p <= INT64_MAX) as Hp64
    by (unfold INT64_MIN, INT64_MAX; lia).
  repeat (apply in_app_or in Hin; destruct Hin as [Hin | Hin]);
    try (now apply (spaces_no_byte _ ","%char H1));
    try (now apply (spaces_no_byte _ ","%char H2));
    try (now apply (spaces_no_byte _ ","%char H3));
    try (now apply (spaces_no_byte _ ","%char H4));
    try (now apply (to_string_no_byte p ","%char Hp64)).
  - destruct br; [|contradiction].
    apply in_app_or in Hin. destruct Hin as [[Hin | []] | Hin]; [discriminate Hin|].
    apply in_app_or in Hin. destruct Hin as [Hin | [Hin | []]];
      [contradiction | discriminate Hin].
  - destruct Hin as [Hin | []]. discriminate Hin.
Qed.

Lemma concat_map_singleton {A B : Type} (f : A -> B) (l : list A) :
  concat (map (fun x => [f x]) l) = map f l.
Proof. induction l as [|a l IH]; [reflexivity|]. simpl. now rewrite IH. Qed.

(** X22. Writing name and port pairs and parsing them again gives the
    pairs back, in order: each field is a name, a colon and the port as
    [to_string] writes it, with optional white space in front, before
    the colon and around the port.  A name in brackets may hold anything
    but a comma (colons included) and comes back without the brackets;
    a name without brackets must be non-empty, hold no comma or colon,
    and neither start nor end with white space or a bracket. *)
Theorem parse_comma_separated_string_port_written
  (entries : list ((text * Z) * name_port_layout)) :
  Forall (fun el => well_written (fst el) (snd el)) entries ->
  parse_comma_separated_string_port
    (join_entries (map (fun el => name_port_source (fst el) (snd el)) entries))
  = map fst entries.
Proof.
  intros Hall. destruct entries as [|e0 es0] eqn:Ee; [reflexivity|].
  rewrite <- Ee in *. assert (entries <> []) as Hne by (subst; discriminate).
  set (srcs := map (fun el => name_port_source (fst el) (snd el)) entries).
  unfold parse_comma_separated_string_port.
  pose proof (parse_comma_separated_string_port_from
                (length (join_entries srcs)) [] (join_entries srcs) []
                (Nat.le_refl _)) as H.
  cbn [app length] in H. rewrite H. clear H.
  rewrite fields_join.
  - unfold srcs. rewrite map_map.
    rewrite (map_ext_in _ (fun el => [fst el])).
    + apply concat_map_singleton.
    + intros el Hin. rewrite Forall_forall in Hall. specialize (Hall el Hin).
      rewrite parse_comma_separated_string_port_single
        by now apply name_port_source_no_comma.
      now rewrite field_entry_written.
  - unfold srcs. apply Forall_map. eapply Forall_impl; [|exact Hall].
    intros el. apply name_port_source_no_comma.
  - unfold srcs. destruct entries; [congruence | discriminate].
Qed.

Lemma parse_comma_separated_string_port_written_witness :
  Forall (fun el => well_written (fst el) (snd el))
    [(($"router.example.org", 6881), mk_name_port_layout $"  " false $" " [] []);
     (($"2001::1", 443), mk_name_port_layout $" " true [] $" " $" ");
     (($"a b", -1), mk_name_port_layout [] false [] [] [])]
  /\ join_entries
       (map (fun el => name_port_source (fst el) (snd el))
          [(($"router.example.org", 6881), mk_name_port_layout $"  " false $" " [] []);
           (($"2001::1", 443), mk_name_port_layout $" " true [] $" " $" ");
           (($"a b", -1), mk_name_port_layout [] false [] [] [])])
     = $"  router.example.org :6881, [2001::1]: 443 ,a b:-1"
  /\ parse_comma_separated_string_port
       (join_entries
          (map (fun el => name_port_source (fst el) (snd el))
             [(($"router.example.org", 6881), mk_name_port_layout $"  " false $" " [] []);
              (($"2001::1", 443), mk_name_port_layout $" " true [] $" " $" ");
              (($"a b", -1), mk_name_port_layout [] false [] [] [])]))
     = [($"router.example.org", 6881); ($"2001::1", 443); ($"a b", -1)].
Proof.
  assert (forall t : text,
             t = $"router.example.org" \/ t = $"2001::1" \/ t = $"a b" ->
             ~ In ","%char t) as Hno.
  { intros t [-> | [-> | ->]]; simpl; intros H;
      repeat (destruct H as [H | H]; [discriminate H|]); exact H. }
  assert (Forall (fun el => well_written (fst el) (snd el))
            [(($"router.example.org", 6881), mk_name_port_layout $"  " false $" " [] []);
             (($"2001::1", 443), mk_name_port_layout $" " true [] $" " $" ");
             (($"a b", -1), mk_name_port_layout [] false [] [] [])]) as Hall.
  { constructor; [|constructor; [|constructor; [|constructor]]];
      unfold well_written, spaces;
      cbn [fst snd np_lead np_bracketed np_before_colon np_before_port np_after_port];
      (split; [repeat constructor|]); (split; [repeat constructor|]);
      (split; [repeat constructor|]); (split; [repeat constructor|]);
      (split; [lia|]); (split; [apply Hno; tauto|]).
    - intros _. split.
      + simpl; intros H; repeat (destruct H as [H | H]; [discriminate H|]); exact H.
      + split.
        * exists "r"%char, $"outer.example.org". repeat split; discriminate.
        * exists $"router.example.or", "g"%char. repeat split; discriminate.
    - discriminate.
    - intros _. split.
      + simpl; intros H; repeat (destruct H as [H | H]; [discriminate H|]); exact H.
      + split.
        * exists "a"%char, $" b". repeat split; discriminate.
        * exists $"a ", "b"%char. repeat split; discriminate. }
  split; [exact Hall|]. split; [reflexivity|].
  exact (parse_comma_separated_string_port_written _ Hall).
Defined.
